(** * Incremental Postgres -> Snowflake loader (airflow/postgres_to_snowflake.py)

    A shallow embedding of the two Airflow tasks of the DAG
    [postgres_to_snowflake]: [get_max_primary_key] and
    [load_incremental_data].  The two databases are modelled as explicit
    state: the source (Postgres) store with its schemas, search path and
    the catalog [information_schema.columns] derived from its tables, and
    the destination (Snowflake) store with its tables.  SQL statements
    issued by the code are an inductive type executed against the stores;
    the Python bodies run in a small state-and-error monad over a world
    that also records every statement executed, in order.

    Modelling choices:
    - every name the code pastes into a statement is read as an unquoted
      identifier: Postgres folds it to lower case and truncates it to 63
      bytes, Snowflake folds it to upper case, and a name that is not a
      plain identifier or is a reserved keyword makes the statement fail
      to parse (section SQL identifiers); the stored names are compared
      exactly with the folded ones;
    - the catalog query compares [table_name] with a string literal, so
      the name is compared exactly, without folding (names containing a
      quote are not modelled);
    - destination values carry no column types: a value is stored as it
      is bound, which matches Snowflake when each destination column has
      the type of its source column; in particular the key column of a
      destination table is numeric, and a text value in it, which such a
      column cannot hold, is reported as an error by [sql_max] (no
      theorem concerns that case);
    - the Snowflake session runs in autocommit mode (the server default):
      each INSERT is committed on its own, a failing statement leaves the
      store as it was, and earlier statements are never undone;
    - the SQL text built with [', '.join(columns)] is represented by the
      list [columns] itself. *)

From Stdlib Require Import Ascii String List ZArith Lia Bool.
Import ListNotations.
Open Scope Z_scope.

(** ** Values and rows *)

Inductive value : Type :=
| VInt (z : Z)
| VStr (s : string)
| VNull.

Definition row := list value.

(** ** Small list helpers *)

(** Position of the first occurrence of a column name. *)
Fixpoint index_of (c : string) (l : list string) : option nat :=
  match l with
  | [] => None
  | x :: l' => if String.eqb x c then Some O
               else option_map S (index_of c l')
  end.

(** Positions of every column of [cols] in [l]; [None] if one is missing. *)
Fixpoint index_all (l : list string) (cols : list string) : option (list nat) :=
  match cols with
  | [] => Some []
  | c :: cs =>
      match index_of c l, index_all l cs with
      | Some i, Some is => Some (i :: is)
      | _, _ => None
      end
  end.

Fixpoint nodup_b (l : list string) : bool :=
  match l with
  | [] => true
  | x :: l' => negb (existsb (String.eqb x) l') && nodup_b l'
  end.

(** ** SQL identifiers

    The code pastes table and column names into the SQL text without
    quotes.  Each engine reads such a name as an unquoted identifier: it
    must be a plain identifier that is not a reserved keyword (otherwise
    the statement does not parse), and it is folded before it is compared
    with the stored names, which are case-sensitive.  Postgres folds to
    lower case (ASCII letters, in a UTF8 database) and truncates to 63
    bytes; Snowflake folds to upper case. *)

Local Open Scope nat_scope.

Definition is_upper (c : ascii) : bool :=
  let n := nat_of_ascii c in (65 <=? n) && (n <=? 90).

Definition is_lower (c : ascii) : bool :=
  let n := nat_of_ascii c in (97 <=? n) && (n <=? 122).

Definition is_alpha (c : ascii) : bool := is_upper c || is_lower c.

Definition is_digit (c : ascii) : bool :=
  let n := nat_of_ascii c in (48 <=? n) && (n <=? 57).

Definition ascii_lower (c : ascii) : ascii :=
  if is_upper c then ascii_of_nat (nat_of_ascii c + 32) else c.

Definition ascii_upper (c : ascii) : ascii :=
  if is_lower c then ascii_of_nat (nat_of_ascii c - 32) else c.

Fixpoint str_map (f : ascii -> ascii) (s : string) : string :=
  match s with
  | EmptyString => EmptyString
  | String c s' => String (f c) (str_map f s')
  end.

Fixpoint str_forall (p : ascii -> bool) (s : string) : bool :=
  match s with
  | EmptyString => true
  | String c s' => p c && str_forall p s'
  end.

(** Postgres's scanner: [ident_start] is a letter, [_] or a byte of a
    multi-byte character; [ident_cont] adds digits and [$]. *)
Definition pg_ident_start (c : ascii) : bool :=
  is_alpha c || Ascii.eqb c "_"%char || (128 <=? nat_of_ascii c).

Definition pg_ident_cont (c : ascii) : bool :=
  pg_ident_start c || is_digit c || Ascii.eqb c "$"%char.

(** Keywords that cannot name a column or a table (Postgres's reserved
    and type/function-name keywords). *)
Definition pg_reserved : list string :=
  ["all"; "analyse"; "analyze"; "and"; "any"; "array"; "as"; "asc"; "asymmetric";
   "both"; "case"; "cast"; "check"; "collate"; "column"; "constraint"; "create";
   "current_catalog"; "current_date"; "current_role"; "current_time";
   "current_timestamp"; "current_user"; "default"; "deferrable"; "desc";
   "distinct"; "do"; "else"; "end"; "except"; "false"; "fetch"; "for";
   "foreign"; "from"; "grant"; "group"; "having"; "in"; "initially";
   "intersect"; "into"; "lateral"; "leading"; "limit"; "localtime";
   "localtimestamp"; "not"; "null"; "offset"; "on"; "only"; "or"; "order";
   "placing"; "primary"; "references"; "returning"; "select"; "session_user";
   "some"; "symmetric"; "system_user"; "table"; "then"; "to"; "trailing";
   "true"; "union"; "unique"; "user"; "using"; "variadic"; "when"; "where";
   "window"; "with";
   "authorization"; "binary"; "collation"; "concurrently"; "cross";
   "current_schema"; "freeze"; "full"; "ilike"; "inner"; "is"; "isnull";
   "join"; "left"; "like"; "natural"; "notnull"; "outer"; "overlaps"; "right";
   "similar"; "tablesample"; "verbose"]%string.

(** A UTF-8 continuation byte. *)
Definition utf8_cont (c : ascii) : bool :=
  let n := nat_of_ascii c in (128 <=? n) && (n <? 192).

(** Largest cut [<= k] that does not split a character. *)
Fixpoint clip_back (s : string) (k : nat) : nat :=
  match k with
  | O => O
  | S k' =>
      match get k s with
      | Some c => if utf8_cont c then clip_back s k' else k
      | None => k
      end
  end.

(** [truncate_identifier]: at most [NAMEDATALEN - 1 = 63] bytes. *)
Definition pg_clip (s : string) : string :=
  if (String.length s <=? 63)%nat then s else substring 0 (clip_back s 63) s.

Definition pg_fold (s : string) : string := pg_clip (str_map ascii_lower s).

(** The stored name an unquoted identifier denotes in Postgres, or [None]
    when the statement does not parse. *)
Definition pg_ident (s : string) : option string :=
  match s with
  | EmptyString => None
  | String c s' =>
      if pg_ident_start c && str_forall pg_ident_cont s' &&
         negb (existsb (String.eqb (str_map ascii_lower s)) pg_reserved)
      then Some (pg_fold s) else None
  end.

Fixpoint pg_idents (l : list string) : option (list string) :=
  match l with
  | [] => Some []
  | c :: l' =>
      match pg_ident c, pg_idents l' with
      | Some n, Some ns => Some (n :: ns)
      | _, _ => None
      end
  end.

(** Snowflake: an unquoted identifier starts with a letter or [_] and
    continues with letters, digits, [_] and [$], at most 255 characters. *)
Definition sf_ident_start (c : ascii) : bool := is_alpha c || Ascii.eqb c "_"%char.

Definition sf_ident_cont (c : ascii) : bool :=
  sf_ident_start c || is_digit c || Ascii.eqb c "$"%char.

(** Snowflake's reserved keywords. *)
Definition sf_reserved : list string :=
  ["ACCOUNT"; "ALL"; "ALTER"; "AND"; "ANY"; "AS"; "BETWEEN"; "BY"; "CASE"; "CAST";
   "CHECK"; "COLUMN"; "CONNECT"; "CONNECTION"; "CONSTRAINT"; "CREATE"; "CROSS";
   "CURRENT"; "CURRENT_DATE"; "CURRENT_TIME"; "CURRENT_TIMESTAMP"; "CURRENT_USER";
   "DATABASE"; "DELETE"; "DISTINCT"; "DROP"; "ELSE"; "EXISTS"; "FALSE";
   "FOLLOWING"; "FOR"; "FROM"; "FULL"; "GRANT"; "GROUP"; "GSCLUSTER"; "HAVING";
   "ILIKE"; "IN"; "INCREMENT"; "INNER"; "INSERT"; "INTERSECT"; "INTO"; "IS";
   "ISSUE"; "JOIN"; "LATERAL"; "LEFT"; "LIKE"; "LOCALTIME"; "LOCALTIMESTAMP";
   "MINUS"; "NATURAL"; "NOT"; "NULL"; "OF"; "ON"; "OR"; "ORDER"; "ORGANIZATION";
   "QUALIFY"; "REGEXP"; "REVOKE"; "RIGHT"; "RLIKE"; "ROW"; "ROWS"; "SAMPLE";
   "SCHEMA"; "SELECT"; "SET"; "SOME"; "START"; "TABLE"; "TABLESAMPLE"; "THEN";
   "TO"; "TRIGGER"; "TRUE"; "TRY_CAST"; "UNION"; "UNIQUE"; "UPDATE"; "USING";
   "VALUES"; "VIEW"; "WHEN"; "WHENEVER"; "WHERE"; "WITH"]%string.

Definition sf_fold (s : string) : string := str_map ascii_upper s.

(** The stored name an unquoted identifier denotes in Snowflake, or
    [None] when the statement does not parse. *)
Definition sf_ident (s : string) : option string :=
  match s with
  | EmptyString => None
  | String c s' =>
      if sf_ident_start c && str_forall sf_ident_cont s' &&
         (String.length s <=? 255) &&
         negb (existsb (String.eqb (sf_fold s)) sf_reserved)
      then Some (sf_fold s) else None
  end.

Fixpoint sf_idents (l : list string) : option (list string) :=
  match l with
  | [] => Some []
  | c :: l' =>
      match sf_ident c, sf_idents l' with
      | Some n, Some ns => Some (n :: ns)
      | _, _ => None
      end
  end.

Local Close Scope nat_scope.

(** ** Source store: PostgreSQL *)

Record stable : Type := {
  sschema : string;
  sname : string;
  scols : list string;
  srows : list row
}.

Record sstore : Type := {
  search_path : list string;
  stables : list stable
}.

(** An unqualified table name is resolved through the search path. *)
Fixpoint resolve_in (tabs : list stable) (T : string) (path : list string)
  : option stable :=
  match path with
  | [] => None
  | s :: path' =>
      match find (fun t => String.eqb (sschema t) s && String.eqb (sname t) T) tabs with
      | Some t => Some t
      | None => resolve_in tabs T path'
      end
  end.

Definition resolve (db : sstore) (T : string) : option stable :=
  match pg_ident T with
  | Some n => resolve_in (stables db) n (search_path db)
  | None => None
  end.

(** [information_schema.columns] as (table_schema, table_name, column_name)
    rows, in catalog order. *)
Definition catalog (db : sstore) : list (string * string * string) :=
  flat_map (fun t => map (fun c => (sschema t, sname t, c)) (scols t)) (stables db).

(** ** Destination store: Snowflake *)

Record dtable : Type := {
  dname : string;
  dcols : list string;
  dnotnull : list string;   (** columns declared NOT NULL (enforced) *)
  drows : list row
}.

Definition dstore := list dtable.

Definition lookup (T : string) (d : dstore) : option dtable :=
  match sf_ident T with
  | Some n => find (fun t => String.eqb (dname t) n) d
  | None => None
  end.

(** Replace the first table stored as [n] by [f] of it. *)
Fixpoint update_in (n : string) (f : dtable -> dtable) (d : dstore) : dstore :=
  match d with
  | [] => []
  | t :: d' => if String.eqb (dname t) n then f t :: d' else t :: update_in n f d'
  end.

Definition update (T : string) (f : dtable -> dtable) (d : dstore) : dstore :=
  match sf_ident T with
  | Some n => update_in n f d
  | None => d
  end.

Definition add_row (r : row) (t : dtable) : dtable :=
  {| dname := dname t; dcols := dcols t; dnotnull := dnotnull t; drows := drows t ++ [r] |}.

(** ** SQL statements issued by the DAG *)

Inductive stmt : Type :=
(** [SELECT column_name FROM information_schema.columns WHERE table_name = 'T'] *)
| SCatalog (T : string)
(** [SELECT cols FROM T WHERE pk > w] *)
| SSelect (cols : list string) (T pk : string) (w : Z)
(** [SELECT MAX(pk) FROM T] *)
| SMax (pk T : string)
(** [INSERT INTO T (cols) VALUES (%s, ...)] with the parameters [r] *)
| SInsert (T : string) (cols : list string) (r : row).

Inductive result (A : Type) : Type :=
| Ok (a : A)
| Err (e : string).
Arguments Ok {A} a.
Arguments Err {A} e.

(** [v > w] in a WHERE clause: NULL is unknown (the row is dropped); a
    text value against an integer literal is a type error. *)
Definition sql_gt (v : value) (w : Z) : option bool :=
  match v with
  | VInt z => Some (w <? z)
  | VNull => Some false
  | VStr _ => None
  end.

Fixpoint filter_res (p : row -> option bool) (rs : list row) : option (list row) :=
  match rs with
  | [] => Some []
  | r :: rs' =>
      match p r, filter_res p rs' with
      | Some b, Some l => Some (if b then r :: l else l)
      | _, _ => None
      end
  end.

Definition project (idxs : list nat) (r : row) : row :=
  map (fun i => nth i r VNull) idxs.

Definition select_where (db : sstore) (cols : list string) (T pk : string) (w : Z)
  : result (list row) :=
  match pg_idents cols, pg_ident T, pg_ident pk with
  | Some cs, Some _, Some k =>
      match resolve db T with
      | None => Err "relation does not exist"
      | Some t =>
          match index_all (scols t) cs, index_of k (scols t) with
          | Some idxs, Some ip =>
              match filter_res (fun r => sql_gt (nth ip r VNull) w) (srows t) with
              | Some rs => Ok (map (project idxs) rs)
              | None => Err "operator does not exist"
              end
          | _, _ => Err "column does not exist"
          end
      end
  | _, _, _ => Err "syntax error"
  end.

(** Execution of a statement on the source store (read-only). *)
Definition exec_pg (s : stmt) (db : sstore) : result (list row) :=
  match s with
  | SCatalog T =>
      Ok (map (fun '(_, _, c) => [VStr c])
              (filter (fun '(_, n, _) => String.eqb n T) (catalog db)))
  | SSelect cols T pk w => select_where db cols T pk w
  | _ => Err "unsupported statement"
  end.

(** [MAX] over a numeric key column: NULLs are skipped, [None] (SQL NULL)
    when no non-NULL value is left.  A text value cannot occur in such a
    column; the model reports it as an error (a VARCHAR key column, whose
    [MAX] is a string, is outside the model). *)
Fixpoint sql_max (vs : list value) : result (option Z) :=
  match vs with
  | [] => Ok None
  | v :: vs' =>
      match sql_max vs' with
      | Err e => Err e
      | Ok m =>
          match v with
          | VNull => Ok m
          | VInt z => Ok (Some (match m with Some z' => Z.max z z' | None => z end))
          | VStr _ => Err "type mismatch"
          end
      end
  end.

(** The destination row an INSERT with column list [cols] writes: each
    column of the table takes the parameter at its position in [cols],
    omitted columns are NULL. *)
Definition build_row (dcs cols : list string) (r : row) : row :=
  map (fun dc => match index_of dc (map sf_fold cols) with
                 | Some i => nth i r VNull
                 | None => VNull
                 end) dcs.

Definition is_null (v : value) : bool :=
  match v with VNull => true | _ => false end.

(** The NOT NULL constraints of a table hold on a row. *)
Definition not_null_ok (t : dtable) (r : row) : bool :=
  forallb (fun p => negb (existsb (String.eqb (fst p)) (dnotnull t) && is_null (snd p)))
          (combine (dcols t) r).

Definition exec_sf (s : stmt) (d : dstore) : result (list row) * dstore :=
  match s with
  | SMax pk T =>
      match sf_ident T, sf_ident pk with
      | Some _, Some k =>
          match lookup T d with
          | None => (Err "table does not exist", d)
          | Some t =>
              match index_of k (dcols t) with
              | None => (Err "invalid identifier", d)
              | Some i =>
                  match sql_max (map (fun r => nth i r VNull) (drows t)) with
                  | Ok (Some z) => (Ok [[VInt z]], d)
                  | Ok None => (Ok [[VNull]], d)
                  | Err e => (Err e, d)
                  end
              end
          end
      | _, _ => (Err "syntax error", d)
      end
  | SInsert T cols r =>
      (* the connector binds the parameters on the client (pyformat) *)
      if negb (Nat.eqb (length cols) (length r)) then (Err "bind count", d)
      else
      match cols, sf_ident T, sf_idents cols with
      | _ :: _, Some _, Some cs =>
          match lookup T d with
          | None => (Err "table does not exist", d)
          | Some t =>
              if negb (nodup_b cs) then (Err "duplicate column", d)
              else if negb (forallb (fun c => existsb (String.eqb c) (dcols t)) cs)
              then (Err "invalid identifier", d)
              else if negb (not_null_ok t (build_row (dcols t) cols r))
              then (Err "NULL result in a non-nullable column", d)
              else (Ok [], update T (add_row (build_row (dcols t) cols r)) d)
          end
      | _, _, _ => (Err "syntax error", d)
      end
  | _ => (Err "unsupported statement", d)
  end.

(** ** The world and the task monad *)

Record world : Type := {
  pg : sstore;
  sf : dstore;
  log : list stmt   (** every statement executed so far, oldest first *)
}.

(** A task body: state passing over the world; an error (a Python
    exception) keeps the effects already committed. *)
Definition M (A : Type) : Type := world -> result A * world.

Definition ret {A} (a : A) : M A := fun w => (Ok a, w).

Definition bind {A B} (m : M A) (f : A -> M B) : M B :=
  fun w => match m w with
           | (Ok a, w') => f a w'
           | (Err e, w') => (Err e, w')
           end.

Definition raise {A} (e : string) : M A := fun w => (Err e, w).

Notation "x <- m ;; k" := (bind m (fun x => k))
  (at level 61, m at next level, right associativity).

(** [cursor.execute] followed by [fetchall] on the Postgres connection. *)
Definition pg_execute (s : stmt) : M (list row) :=
  fun w => (exec_pg s (pg w), {| pg := pg w; sf := sf w; log := log w ++ [s] |}).

(** [cursor.execute] on the Snowflake connection (autocommit). *)
Definition sf_execute (s : stmt) : M (list row) :=
  fun w => let (r, d') := exec_sf s (sf w) in
           (r, {| pg := pg w; sf := d'; log := log w ++ [s] |}).

(** ** The tasks *)

Definition pk_name (T : string) : string := "ID_" ++ T.

(** [get_max_primary_key]: [max_id = cursor.fetchone()[0]];
    [return max_id if max_id is not None else 0]. *)
Definition get_max_primary_key (table_name : string) : M Z :=
  rows <- sf_execute (SMax (pk_name table_name) table_name) ;;
  match rows with
  | (VInt z :: _) :: _ => ret z
  | (VNull :: _) :: _ => ret 0
  | _ => raise "unexpected result"
  end.

(** [columns = [row[0] for row in pg_cursor.fetchall()]], which
    [', '.join] requires to be strings. *)
Fixpoint column_names (rows : list row) : result (list string) :=
  match rows with
  | [] => Ok []
  | (VStr c :: _) :: rows' =>
      match column_names rows' with
      | Ok cs => Ok (c :: cs)
      | Err e => Err e
      end
  | _ :: _ => Err "sequence item: expected str instance"
  end.

Definition lift {A} (r : result A) : M A := fun w => (r, w).

(** [for row in rows: sf_cursor.execute(insert_query, row)] *)
Fixpoint insert_rows (table_name : string) (columns : list string) (rows : list row)
  : M unit :=
  match rows with
  | [] => ret tt
  | r :: rows' =>
      _ <- sf_execute (SInsert table_name columns r) ;;
      insert_rows table_name columns rows'
  end.

Definition load_incremental_data (table_name : string) (max_id : Z) : M unit :=
  let primary_key := pk_name table_name in
  crows <- pg_execute (SCatalog table_name) ;;
  columns <- lift (column_names crows) ;;
  rows <- pg_execute (SSelect columns table_name primary_key max_id) ;;
  insert_rows table_name columns rows.

(** One table's pipeline in the DAG:
    [max_id = get_max_primary_key(t); load_incremental_data(t, max_id)]. *)
Definition pipeline (table_name : string) : M unit :=
  max_id <- get_max_primary_key table_name ;;
  load_incremental_data table_name max_id.

(** The discovered column list, as the catalog query yields it. *)
Definition discovered_columns (db : sstore) (T : string) : list string :=
  map (fun '(_, _, c) => c) (filter (fun '(_, n, _) => String.eqb n T) (catalog db)).

(** [SELECT MAX(ID_T) FROM T] on a destination store: [None] is NULL. *)
Definition max_raw (d : dstore) (T : string) : result (option Z) :=
  match sf_ident T, sf_ident (pk_name T) with
  | Some _, Some k =>
      match lookup T d with
      | None => Err "table does not exist"
      | Some t =>
          match index_of k (dcols t) with
          | None => Err "invalid identifier"
          | Some i => sql_max (map (fun r => nth i r VNull) (drows t))
          end
      end
  | _, _ => Err "syntax error"
  end.

(** Watermark read from a destination store, without the log. *)
Definition max_pk (d : dstore) (T : string) : result Z :=
  match max_raw d T with
  | Ok (Some z) => Ok z
  | Ok None => Ok 0
  | Err e => Err e
  end.

(** Statements of a log that are INSERTs. *)
Definition is_insert (s : stmt) : bool :=
  match s with SInsert _ _ _ => true | _ => false end.

(** Runs of the DAG over time: any table's pipeline, with any outcome, or
    an arbitrary change of the source store. *)
Inductive step : world -> world -> Prop :=
| step_run (T : string) (w : world) (r : result unit) (w' : world) :
    pipeline T w = (r, w') -> step w w'
| step_source (w : world) (db : sstore) :
    step w {| pg := db; sf := sf w; log := log w |}.

Inductive steps : world -> world -> Prop :=
| steps_refl w : steps w w
| steps_cons w1 w2 w3 : step w1 w2 -> steps w2 w3 -> steps w1 w3.

(** ** Pure view of the INSERT loop *)

Fixpoint ins_all (T : string) (cols : list string) (rs : list row) (d : dstore)
  : result unit * dstore :=
  match rs with
  | [] => (Ok tt, d)
  | r :: rs' =>
      match exec_sf (SInsert T cols r) d with
      | (Ok _, d') => ins_all T cols rs' d'
      | (Err e, d') => (Err e, d')
      end
  end.

(** The primary-key value a row carries through the column list [cols]. *)
Definition key_via (T : string) (cols : list string) (r : row) : value :=
  match index_of (sf_fold (pk_name T)) (map sf_fold cols) with
  | Some k => nth k r VNull
  | None => VNull
  end.

(** A key the WHERE clause let through, or no key at all. *)
Definition key_above (c : Z) (v : value) : Prop :=
  v = VNull \/ exists z, v = VInt z /\ c < z.

(** During a run with watermark [c]: the destination watermark is at least
    [c], and equals [c] while the key column holds no value. *)
Definition wm_inv (T : string) (c : Z) (d : dstore) (b : Z) : Prop :=
  max_pk d T = Ok b /\ c <= b /\ (max_raw d T = Ok None -> c = b).

(** ** The DAG *)

(** [table_names] of [postgres_to_snowflake_etl]. *)
Definition table_names : list string :=
  ["veiculos"; "estados"; "cidades"; "concessionarias"; "vendedores";
   "clientes"; "vendas"]%string.

Inductive task_kind : Type := GetMaxId | LoadData.

Record task : Type := {
  task_id : string;
  task_kind_of : task_kind;
  task_table : string
}.

(** The loop body: [@task(task_id=f'get_max_id_{table_name}')] and
    [@task(task_id=f'load_data_{table_name}')], instantiated per table. *)
Definition table_tasks (tn : string) : list task :=
  [ {| task_id := "get_max_id_" ++ tn; task_kind_of := GetMaxId; task_table := tn |};
    {| task_id := "load_data_" ++ tn; task_kind_of := LoadData; task_table := tn |} ]%string.

Definition dag_tasks (tns : list string) : list task := flat_map table_tasks tns.

(** [load_incremental_data(table_name, max_id)] consumes the output of
    [get_max_primary_key(table_name)]: one dependency edge per table. *)
Definition dag_edges (tns : list string) : list (string * string) :=
  map (fun tn => ("get_max_id_" ++ tn, "load_data_" ++ tn)%string) tns.

(** A run of the DAG: every table's pipeline, one after the other, each
    run whatever the outcome of the others (the tasks of different tables
    do not depend on each other). *)
Fixpoint dag_run (tns : list string) (w : world) : list (result unit) * world :=
  match tns with
  | [] => ([], w)
  | tn :: tns' =>
      let (r, w1) := pipeline tn w in
      let (rs, w2) := dag_run tns' w1 in
      (r :: rs, w2)
  end.

(** ** Effect of one pipeline on the destination *)

Definition pipeline_sf (T : string) (db : sstore) (d : dstore) : result unit * dstore :=
  match max_pk d T with
  | Err e => (Err e, d)
  | Ok c =>
      match select_where db (discovered_columns db T) T (pk_name T) c with
      | Err e => (Err e, d)
      | Ok rs => ins_all T (discovered_columns db T) rs d
      end
  end.

(** Every row of every destination table has one value per column and
    respects the NOT NULL constraints. *)
Definition dwf (d : dstore) : Prop :=
  forall t, In t d -> forall r, In r (drows t) ->
    length r = length (dcols t) /\ not_null_ok t r = true.

(** [dwf] as a check. *)
Definition dwfb (d : dstore) : bool :=
  forallb (fun t => forallb (fun r => Nat.eqb (length r) (length (dcols t)) && not_null_ok t r)
                            (drows t)) d.

(** ** Sample worlds *)

Module Samples.
Local Open Scope string_scope.

Definition ex_table : stable :=
  {| sschema := "public"; sname := "estados";
     scols := ["id_estados"; "nome"];
     srows := [[VInt 1; VStr "AC"]; [VInt 2; VStr "AL"];
               [VInt 3; VStr "AP"]; [VInt 4; VStr "AM"];
               [VInt 5; VStr "BA"]] |}.

Definition ex_src : sstore :=
  {| search_path := ["public"]; stables := [ex_table] |}.

Definition ex_dst : dstore :=
  [ {| dname := "ESTADOS"; dcols := ["ID_ESTADOS"; "NOME"]; dnotnull := ["ID_ESTADOS"];
       drows := [[VInt 1; VStr "AC"]; [VInt 2; VStr "AL"]; [VInt 3; VStr "AP"]] |} ].

Definition ex_dtable : dtable :=
  {| dname := "ESTADOS"; dcols := ["ID_ESTADOS"; "NOME"]; dnotnull := ["ID_ESTADOS"];
     drows := [[VInt 1; VStr "AC"]; [VInt 2; VStr "AL"]; [VInt 3; VStr "AP"]] |}.

Definition ex_world : world := {| pg := ex_src; sf := ex_dst; log := [] |}.

(** The world after the first run. *)
Definition ex_world1 : world := snd (pipeline "estados" ex_world).

(** A source row with no name, and a destination that requires one: the
    second INSERT of the batch is refused. *)
Definition ex_src_null : sstore :=
  {| search_path := ["public"];
     stables := [ {| sschema := "public"; sname := "estados";
                     scols := ["id_estados"; "nome"];
                     srows := [[VInt 3; VStr "AP"]; [VInt 4; VStr "AM"];
                               [VInt 5; VNull]] |} ] |}.

Definition ex_dst_strict : dstore :=
  [ {| dname := "ESTADOS"; dcols := ["ID_ESTADOS"; "NOME"];
       dnotnull := ["ID_ESTADOS"; "NOME"];
       drows := [[VInt 3; VStr "AP"]] |} ].

Definition ex_world_null : world := {| pg := ex_src_null; sf := ex_dst_strict; log := [] |}.

(** Two schemas with a table [estados]. *)
Definition ex_src_two : sstore :=
  {| search_path := ["public"];
     stables := [ex_table;
                 {| sschema := "staging"; sname := "estados";
                    scols := ["id_estados"; "uf"]; srows := [] |}] |}.

(** Two tables, loaded in either order. *)
Definition ex_src2 : sstore :=
  {| search_path := ["public"];
     stables := [ex_table;
                 {| sschema := "public"; sname := "cidades";
                    scols := ["id_cidades"; "nome"];
                    srows := [[VInt 1; VStr "Rio Branco"]; [VInt 2; VStr "Maceio"]] |}] |}.

Definition ex_dst2 : dstore :=
  [ ex_dtable;
    {| dname := "CIDADES"; dcols := ["ID_CIDADES"; "NOME"]; dnotnull := ["ID_CIDADES"];
       drows := [] |} ].

Definition ex_world2 : world := {| pg := ex_src2; sf := ex_dst2; log := [] |}.



(** A source key stored as text. *)
Definition ex_src_textkey : sstore :=
  {| search_path := ["public"];
     stables := [ {| sschema := "public"; sname := "estados";
                     scols := ["id_estados"; "nome"];
                     srows := [[VInt 4; VStr "AM"]; [VStr "5"; VStr "BA"]] |} ] |}.

Definition ex_world_textkey : world := {| pg := ex_src_textkey; sf := ex_dst; log := [] |}.

(** A destination table whose keys are all NULL. *)
Definition ex_dtable_nullkeys : dtable :=
  {| dname := "ESTADOS"; dcols := ["ID_ESTADOS"; "NOME"]; dnotnull := [];
     drows := [[VNull; VStr "AC"]; [VNull; VStr "AL"]] |}.

Definition ex_world_nullkeys : world :=
  {| pg := ex_src; sf := [ex_dtable_nullkeys]; log := [] |}.

(** A table created with quoted, mixed-case column names: the catalog
    lists [ID_estados], which the unquoted name in the SELECT does not
    denote. *)
Definition ex_table_quoted : stable :=
  {| sschema := "public"; sname := "estados";
     scols := ["ID_estados"; "nome"];
     srows := [[VInt 1; VStr "AC"]; [VInt 4; VStr "AM"]; [VInt 5; VStr "BA"]] |}.

Definition ex_src_quoted : sstore :=
  {| search_path := ["public"]; stables := [ex_table_quoted] |}.




Example ex_two_schemas :
  discovered_columns ex_src_two "estados" = ["id_estados"; "nome"; "id_estados"; "uf"].
Proof. reflexivity. Qed.

Example ex_partial :
  let w' := snd (load_incremental_data "estados" 3 ex_world_null) in
  map drows (sf w') = [[[VInt 3; VStr "AP"]; [VInt 4; VStr "AM"]]] /\
  fst (get_max_primary_key "estados" w') = Ok 4.
Proof. split; reflexivity. Qed.

Example ex_max : fst (get_max_primary_key "estados" ex_world) = Ok 3.
Proof. reflexivity. Qed.

Example ex_run :
  map drows (sf (snd (pipeline "estados" ex_world))) =
  [[[VInt 1; VStr "AC"]; [VInt 2; VStr "AL"]; [VInt 3; VStr "AP"];
    [VInt 4; VStr "AM"]; [VInt 5; VStr "BA"]]].
Proof. reflexivity. Qed.

Example ex_rerun :
  let w1 := snd (pipeline "estados" ex_world) in
  fst (get_max_primary_key "estados" w1) = Ok 5 /\
  filter is_insert (log (snd (pipeline "estados" w1))) = filter is_insert (log w1).
Proof. split; reflexivity. Qed.

End Samples.

(** ** Lemmas on the helpers *)

Lemma index_of_some c l i : index_of c l = Some i -> nth_error l i = Some c.
Proof.
  revert i; induction l as [|x l IH]; simpl; intros i H; [discriminate|].
  destruct (String.eqb_spec x c) as [->|Hne].
  - injection H as <-; reflexivity.
  - destruct (index_of c l) as [j|] eqn:E; simpl in H; [|discriminate].
    injection H as <-; simpl; apply IH; reflexivity.
Qed.

Lemma index_of_in c l : In c l -> exists i, index_of c l = Some i.
Proof.
  induction l as [|x l IH]; simpl; intros H; [contradiction|].
  destruct (String.eqb_spec x c) as [->|Hne]; [eauto|].
  destruct H as [->|H]; [contradiction|].
  destruct (IH H) as [i ->]; simpl; eauto.
Qed.

Lemma index_of_none c l : index_of c l = None -> ~ In c l.
Proof.
  intros H Hin; destruct (index_of_in c l Hin) as [i Hi]; congruence.
Qed.

Lemma index_of_nodup c l k :
  NoDup l -> nth_error l k = Some c -> index_of c l = Some k.
Proof.
  revert k; induction l as [|x l IH]; intros k Hnd Hk.
  - destruct k; discriminate.
  - inversion Hnd as [|? ? Hx Hnd']; subst. simpl.
    destruct k as [|k]; simpl in Hk.
    + injection Hk as ->. rewrite String.eqb_refl; reflexivity.
    + destruct (String.eqb_spec x c) as [->|Hne].
      * exfalso; apply Hx; eapply nth_error_In; eauto.
      * rewrite (IH k Hnd' Hk); reflexivity.
Qed.

Lemma nodup_b_NoDup l : nodup_b l = true -> NoDup l.
Proof.
  induction l as [|x l IH]; simpl; intros H; [constructor|].
  apply andb_true_iff in H as [H1 H2].
  constructor; [|auto].
  intros Hin. apply negb_true_iff in H1.
  assert (existsb (String.eqb x) l = true) by
    (apply existsb_exists; exists x; split; [auto|apply String.eqb_refl]).
  congruence.
Qed.

Lemma index_all_nth l cols idxs k c :
  index_all l cols = Some idxs -> nth_error cols k = Some c ->
  exists i, index_of c l = Some i /\ nth_error idxs k = Some i.
Proof.
  revert idxs k; induction cols as [|c' cs IH]; simpl; intros idxs k H Hk.
  - destruct k; discriminate.
  - destruct (index_of c' l) as [i|] eqn:Ei; [|discriminate].
    destruct (index_all l cs) as [is|] eqn:Eis; [|discriminate].
    injection H as <-.
    destruct k as [|k]; simpl in Hk.
    + injection Hk as ->; eauto.
    + destruct (IH is k eq_refl Hk) as [j [Hj1 Hj2]]; eauto.
Qed.

Lemma sf_ident_fold s n : sf_ident s = Some n -> n = sf_fold s.
Proof.
  destruct s as [|c s']; simpl; [discriminate|].
  destruct (_ && _); congruence.
Qed.

Lemma pg_ident_fold s n : pg_ident s = Some n -> n = pg_fold s.
Proof.
  destruct s as [|c s']; simpl; [discriminate|].
  destruct (_ && _); congruence.
Qed.

Lemma sf_idents_map l ns : sf_idents l = Some ns -> ns = map sf_fold l.
Proof.
  revert ns; induction l as [|c l IH]; simpl; intros ns H; [congruence|].
  destruct (sf_ident c) as [n|] eqn:E; [|discriminate].
  destruct (sf_idents l) as [ns'|]; [|discriminate].
  injection H as <-. rewrite (sf_ident_fold _ _ E), (IH ns' eq_refl); reflexivity.
Qed.

Lemma pg_idents_map l ns : pg_idents l = Some ns -> ns = map pg_fold l.
Proof.
  revert ns; induction l as [|c l IH]; simpl; intros ns H; [congruence|].
  destruct (pg_ident c) as [n|] eqn:E; [|discriminate].
  destruct (pg_idents l) as [ns'|]; [|discriminate].
  injection H as <-. rewrite (pg_ident_fold _ _ E), (IH ns' eq_refl); reflexivity.
Qed.

Lemma pg_idents_all l : (forall c, In c l -> exists n, pg_ident c = Some n) ->
  exists ns, pg_idents l = Some ns.
Proof.
  induction l as [|c l IH]; simpl; intros H; [eauto|].
  destruct (H c (or_introl eq_refl)) as [n ->].
  destruct IH as [ns ->]; [intros; apply H; auto|eauto].
Qed.

Lemma ascii_lower_upper c : ascii_lower (ascii_upper c) = ascii_lower c.
Proof.
  destruct c as [b0 b1 b2 b3 b4 b5 b6 b7];
    destruct b0, b1, b2, b3, b4, b5, b6, b7; vm_compute; reflexivity.
Qed.

Lemma str_map_lower_upper s :
  str_map ascii_lower (str_map ascii_upper s) = str_map ascii_lower s.
Proof.
  induction s as [|c s IH]; simpl; [reflexivity|].
  rewrite ascii_lower_upper, IH; reflexivity.
Qed.

(** Two names Snowflake folds alike are folded alike by Postgres. *)
Lemma sf_fold_pg_fold a b : sf_fold a = sf_fold b -> pg_fold a = pg_fold b.
Proof.
  unfold pg_fold, sf_fold; intros H.
  rewrite <- (str_map_lower_upper a), <- (str_map_lower_upper b), H; reflexivity.
Qed.

Lemma ascii_upper_idem c : ascii_upper (ascii_upper c) = ascii_upper c.
Proof.
  destruct c as [b0 b1 b2 b3 b4 b5 b6 b7];
    destruct b0, b1, b2, b3, b4, b5, b6, b7; vm_compute; reflexivity.
Qed.

Lemma sf_ident_start_upper c : sf_ident_start (ascii_upper c) = sf_ident_start c.
Proof.
  destruct c as [b0 b1 b2 b3 b4 b5 b6 b7];
    destruct b0, b1, b2, b3, b4, b5, b6, b7; vm_compute; reflexivity.
Qed.

Lemma sf_ident_cont_upper c : sf_ident_cont (ascii_upper c) = sf_ident_cont c.
Proof.
  destruct c as [b0 b1 b2 b3 b4 b5 b6 b7];
    destruct b0, b1, b2, b3, b4, b5, b6, b7; vm_compute; reflexivity.
Qed.

Lemma str_map_upper_idem s :
  str_map ascii_upper (str_map ascii_upper s) = str_map ascii_upper s.
Proof.
  induction s as [|c s IH]; simpl; [reflexivity|].
  rewrite ascii_upper_idem, IH; reflexivity.
Qed.

Lemma str_forall_upper s :
  str_forall sf_ident_cont (str_map ascii_upper s) = str_forall sf_ident_cont s.
Proof.
  induction s as [|c s IH]; simpl; [reflexivity|].
  rewrite sf_ident_cont_upper, IH; reflexivity.
Qed.

Lemma str_map_length f s : String.length (str_map f s) = String.length s.
Proof. induction s as [|c s IH]; simpl; congruence. Qed.

Lemma str_map_app f a b : str_map f (a ++ b) = (str_map f a ++ str_map f b)%string.
Proof. induction a as [|c a IH]; simpl; congruence. Qed.

(** Whether a name is a Snowflake identifier, and what it denotes, only
    depend on its folded spelling. *)
Lemma sf_ident_sf_fold s : sf_ident (sf_fold s) = sf_ident s.
Proof.
  destruct s as [|c s']; [reflexivity|].
  unfold sf_ident, sf_fold; cbn [str_map String.length].
  rewrite sf_ident_start_upper, str_forall_upper, str_map_length.
  cbn [str_map]. rewrite ascii_upper_idem, str_map_upper_idem. reflexivity.
Qed.

Lemma sf_ident_same a b : sf_fold a = sf_fold b -> sf_ident a = sf_ident b.
Proof.
  intros H; rewrite <- (sf_ident_sf_fold a), <- (sf_ident_sf_fold b), H; reflexivity.
Qed.

Lemma sf_fold_pk_name T T' :
  sf_fold T = sf_fold T' -> sf_fold (pk_name T) = sf_fold (pk_name T').
Proof. unfold sf_fold, pk_name; rewrite !str_map_app; congruence. Qed.




(** The key column of a table named by a plain identifier is itself a
    plain identifier. *)
Lemma pg_ident_pk T :
  pg_ident T = Some T -> pg_ident (pk_name T) = Some (pg_fold (pk_name T)).
Proof.
  destruct T as [|c s']; [discriminate|].
  unfold pg_ident, pk_name; cbn [append str_forall].
  destruct (pg_ident_start c) eqn:Hc; [|intros H; discriminate H].
  destruct (str_forall pg_ident_cont s'); [|intros H; discriminate H].
  intros _.
  assert (Hcc : pg_ident_cont c = true) by (unfold pg_ident_cont; rewrite Hc; reflexivity).
  rewrite Hcc. reflexivity.
Qed.

Lemma pg_idents_self l : Forall (fun c => pg_ident c = Some c) l -> pg_idents l = Some l.
Proof. induction 1 as [|c l Hc _ IH]; simpl; [reflexivity|]. rewrite Hc, IH; reflexivity. Qed.

Lemma pg_idents_nth l ns k c :
  pg_idents l = Some ns -> nth_error l k = Some c ->
  exists n, pg_ident c = Some n /\ nth_error ns k = Some n.
Proof.
  revert ns k; induction l as [|x l IH]; simpl; intros ns k H Hk;
    [destruct k; discriminate|].
  destruct (pg_ident x) as [n|] eqn:Ex; [|discriminate].
  destruct (pg_idents l) as [ns'|]; [|discriminate].
  injection H as <-. destruct k as [|k]; simpl in Hk |- *.
  - injection Hk as <-; eauto.
  - eapply IH; eauto.
Qed.

Lemma find_update_in_same n r d t :
  find (fun t => String.eqb (dname t) n) d = Some t ->
  find (fun t => String.eqb (dname t) n) (update_in n (add_row r) d) = Some (add_row r t).
Proof.
  induction d as [|x d IH]; simpl; intros H; [discriminate|].
  destruct (String.eqb (dname x) n) eqn:E.
  - injection H as ->. simpl. rewrite E. reflexivity.
  - simpl. rewrite E. auto.
Qed.

Lemma lookup_ident T d t : lookup T d = Some t -> exists n, sf_ident T = Some n.
Proof. unfold lookup; destruct (sf_ident T); [eauto|discriminate]. Qed.

Lemma opt_string_dec (a b : option string) : {a = b} + {a <> b}.
Proof. decide equality; apply String.string_dec. Defined.

(** Two names Snowflake reads as the same identifier denote the same
    table. *)
Lemma lookup_same_ident X T d : sf_ident X = sf_ident T -> lookup X d = lookup T d.
Proof. unfold lookup; intros ->; reflexivity. Qed.

Lemma lookup_update_same T r d t :
  lookup T d = Some t -> lookup T (update T (add_row r) d) = Some (add_row r t).
Proof.
  unfold lookup, update; destruct (sf_ident T) as [n|]; [|discriminate].
  apply find_update_in_same.
Qed.

(** Only the table [T] denotes is touched; a table named differently up to
    Snowflake's folding is not. *)
Lemma lookup_update_other T T' r d :
  sf_ident T <> sf_ident T' -> lookup T (update T' (add_row r) d) = lookup T d.
Proof.
  unfold lookup, update; intros Hne.
  destruct (sf_ident T) as [n|]; [|reflexivity].
  destruct (sf_ident T') as [n'|]; [|reflexivity].
  assert (n <> n') by congruence.
  induction d as [|x d IH]; simpl; [reflexivity|].
  destruct (String.eqb_spec (dname x) n') as [Hx|Hx]; simpl.
  - rewrite Hx. destruct (String.eqb_spec n' n); [congruence|]. reflexivity.
  - destruct (String.eqb (dname x) n); auto.
Qed.

Lemma sql_max_snoc vs v :
  sql_max (vs ++ [v]) =
  match sql_max vs with
  | Err e => Err e
  | Ok m =>
      match v with
      | VNull => Ok m
      | VInt z => Ok (Some (match m with Some z' => Z.max z z' | None => z end))
      | VStr _ => Err "type mismatch"%string
      end
  end.
Proof.
  induction vs as [|x vs IH]; simpl.
  - destruct v; reflexivity.
  - rewrite IH.
    destruct (sql_max vs) as [m|e]; [|destruct x; reflexivity].
    destruct v as [z| |]; destruct x as [x| |]; destruct m as [m|];
      try reflexivity; f_equal; f_equal; lia.
Qed.

Lemma sql_max_upper vs o z :
  sql_max vs = Ok o -> In (VInt z) vs -> exists m, o = Some m /\ z <= m.
Proof.
  revert o; induction vs as [|x vs IH]; simpl; intros o H Hin; [contradiction|].
  destruct (sql_max vs) as [m|e]; [|discriminate].
  destruct Hin as [->|Hin].
  - injection H as <-. destruct m; eexists; split; [reflexivity|lia|reflexivity|lia].
  - destruct (IH m eq_refl Hin) as [m' [-> Hm']].
    destruct x; try discriminate; injection H as <-; eexists; split;
      try reflexivity; lia.
Qed.

Lemma sql_max_attained vs m :
  sql_max vs = Ok (Some m) -> In (VInt m) vs.
Proof.
  revert m; induction vs as [|x vs IH]; simpl; intros m H; [discriminate|].
  destruct (sql_max vs) as [o|e]; [|discriminate].
  destruct x as [z| |]; [|discriminate|].
  - injection H as <-. destruct o as [z'|].
    + destruct (Z.max_spec z z') as [[_ ->]|[_ ->]]; [right; apply IH; reflexivity|left; reflexivity].
    + left; reflexivity.
  - right; apply IH; exact H.
Qed.

Lemma sql_max_ints vs :
  (forall v, In v vs -> exists z, v = VInt z) -> exists o, sql_max vs = Ok o.
Proof.
  induction vs as [|x vs IH]; simpl; intros H; [eauto|].
  destruct IH as [o ->]; [intros v Hv; apply H; auto|].
  destruct (H x (or_introl eq_refl)) as [z ->]; eauto.
Qed.

Lemma filter_res_in p rs fs r :
  filter_res p rs = Some fs -> In r fs <-> In r rs /\ p r = Some true.
Proof.
  revert fs; induction rs as [|x rs IH]; simpl; intros fs H.
  - injection H as <-; simpl; tauto.
  - destruct (p x) as [b|] eqn:Ep; [|discriminate].
    destruct (filter_res p rs) as [l|] eqn:El; [|discriminate].
    injection H as <-.
    specialize (IH l eq_refl).
    destruct b; simpl; split.
    + intros [<-|Hr]; [auto|]. apply IH in Hr; tauto.
    + intros [[<-|Hr] Hp]; [auto|]. right; apply IH; auto.
    + intros Hr; apply IH in Hr; tauto.
    + intros [[<-|Hr] Hp]; [congruence|]. apply IH; auto.
Qed.

Lemma filter_res_defined p rs fs r :
  filter_res p rs = Some fs -> In r rs -> p r <> None.
Proof.
  revert fs; induction rs as [|x rs IH]; simpl; intros fs H Hin; [contradiction|].
  destruct (p x) as [b|] eqn:Ep; [|discriminate].
  destruct (filter_res p rs) as [l|] eqn:El; [|discriminate].
  destruct Hin as [<-|Hin]; [congruence|eauto].
Qed.


Lemma nth_map_error {A B} (g : A -> B) (l : list A) k x (dflt : B) :
  nth_error l k = Some x -> nth k (map g l) dflt = g x.
Proof.
  intros H. apply nth_error_nth.
  rewrite nth_error_map, H; reflexivity.
Qed.

Lemma build_row_at p dcs cols r i :
  index_of p dcs = Some i ->
  nth i (build_row dcs cols r) VNull =
  match index_of p (map sf_fold cols) with Some k => nth k r VNull | None => VNull end.
Proof.
  intros H. unfold build_row.
  erewrite nth_map_error; [reflexivity|].
  apply index_of_some; exact H.
Qed.

(** ** The tasks, step by step *)

Lemma get_max_eq T w :
  get_max_primary_key T w =
  (max_pk (sf w) T,
   {| pg := pg w; sf := sf w; log := log w ++ [SMax (pk_name T) T] |}).
Proof.
  unfold get_max_primary_key, bind, sf_execute, max_pk, max_raw, exec_sf.
  destruct (sf_ident T) as [n|]; [|reflexivity].
  destruct (sf_ident (pk_name T)) as [k|]; [|reflexivity].
  destruct (lookup T (sf w)) as [t|]; [|reflexivity].
  destruct (index_of k (dcols t)) as [i|]; [|reflexivity].
  destruct (sql_max _) as [[z|]|e]; reflexivity.
Qed.

Lemma column_names_catalog (l : list (string * string * string)) :
  column_names (map (fun '(_, _, c) => [VStr c]) l) = Ok (map (fun '(_, _, c) => c) l).
Proof.
  induction l as [|[[s n] c] l IH]; simpl; [reflexivity|].
  rewrite IH; reflexivity.
Qed.

Lemma load_eq T W w :
  load_incremental_data T W w =
  (let cols := discovered_columns (pg w) T in
   let w1 := {| pg := pg w; sf := sf w;
                log := log w ++ [SCatalog T; SSelect cols T (pk_name T) W] |} in
   match select_where (pg w) cols T (pk_name T) W with
   | Ok rs => insert_rows T cols rs w1
   | Err e => (Err e, w1)
   end).
Proof.
  unfold load_incremental_data, bind, pg_execute, lift. simpl.
  rewrite column_names_catalog. simpl.
  rewrite <- app_assoc. simpl.
  destruct (select_where (pg w) _ T (pk_name T) W); reflexivity.
Qed.

Lemma insert_rows_spec T cols rs w :
  exists k, (k <= length rs)%nat /\
    (fst (ins_all T cols rs (sf w)) = Ok tt -> k = length rs) /\
    insert_rows T cols rs w =
    (fst (ins_all T cols rs (sf w)),
     {| pg := pg w; sf := snd (ins_all T cols rs (sf w));
        log := log w ++ map (SInsert T cols) (firstn k rs) |}).
Proof.
  revert w; induction rs as [|r rs IH]; intros w.
  - exists O. simpl. rewrite app_nil_r. destruct w; repeat split; auto.
  - cbn [insert_rows ins_all]. unfold bind at 1, sf_execute at 1.
    destruct (exec_sf (SInsert T cols r) (sf w)) as [[x|e] d'] eqn:E.
    + destruct (IH {| pg := pg w; sf := d'; log := log w ++ [SInsert T cols r] |})
        as [k [Hk [Hok Heq]]].
      cbn [sf pg log] in Hok, Heq.
      exists (S k). rewrite Heq, <- app_assoc.
      split; [cbn [length]; lia|]. split; [|reflexivity].
      intros H; rewrite (Hok H); reflexivity.
    + exists 1%nat. split; [cbn [length]; lia|]. split; [discriminate|reflexivity].
Qed.

Lemma exec_insert_cases T cols r d res d' :
  exec_sf (SInsert T cols r) d = (res, d') ->
  (d' = d /\ exists e, res = Err e) \/
  (res = Ok [] /\ exists t, lookup T d = Some t /\ cols <> [] /\
     sf_idents cols = Some (map sf_fold cols) /\ NoDup (map sf_fold cols) /\
     length cols = length r /\ (forall c, In c (map sf_fold cols) -> In c (dcols t)) /\
     not_null_ok t (build_row (dcols t) cols r) = true /\
     d' = update T (add_row (build_row (dcols t) cols r)) d).
Proof.
  unfold exec_sf.
  destruct (Nat.eqb_spec (length cols) (length r)) as [Hl|Hl]; cbn [negb];
    [|intros H; injection H as <- <-; eauto].
  destruct cols as [|c0 cols0]; [intros H; injection H as <- <-; eauto|].
  cbn iota beta.
  destruct (sf_ident T) as [n|] eqn:En; [|intros H; injection H as <- <-; eauto].
  destruct (sf_idents (c0 :: cols0)) as [cs|] eqn:Ecs;
    [|intros H; injection H as <- <-; eauto].
  pose proof (sf_idents_map _ _ Ecs) as ->.
  destruct (lookup T d) as [t|] eqn:Ht; [|intros H; injection H as <- <-; eauto].
  destruct (nodup_b _) eqn:Hnd; cbn [negb]; [|intros H; injection H as <- <-; eauto].
  destruct (forallb _ _) eqn:Hall; cbn [negb]; [|intros H; injection H as <- <-; eauto].
  destruct (not_null_ok t _) eqn:Hnn; cbn [negb]; [|intros H; injection H as <- <-; eauto].
  intros H.
  injection H as <- <-. right; split; [reflexivity|].
  exists t; split; [reflexivity|]; split; [discriminate|].
  repeat split; auto using nodup_b_NoDup.
  intros c Hc. rewrite forallb_forall in Hall.
  specialize (Hall c Hc). apply existsb_exists in Hall as [x [Hx Hxc]].
  apply String.eqb_eq in Hxc; subst; exact Hx.
Qed.

Lemma max_pk_lookup T d d' :
  lookup T d = lookup T d' -> max_pk d T = max_pk d' T.
Proof. unfold max_pk, max_raw; intros ->; reflexivity. Qed.

Lemma max_pk_same_ident T T' d :
  sf_fold T = sf_fold T' -> max_pk d T = max_pk d T'.
Proof.
  intros H. unfold max_pk, max_raw, lookup.
  rewrite (sf_ident_same _ _ H), (sf_ident_same _ _ (sf_fold_pk_name _ _ H)).
  reflexivity.
Qed.

Lemma exec_insert_same_ident T T' cols r d :
  sf_ident T = sf_ident T' ->
  exec_sf (SInsert T cols r) d = exec_sf (SInsert T' cols r) d.
Proof. intros H. unfold exec_sf, lookup, update. rewrite H. reflexivity. Qed.

Lemma ins_all_same_ident T T' cols rs d :
  sf_ident T = sf_ident T' -> ins_all T cols rs d = ins_all T' cols rs d.
Proof.
  intros H; revert d; induction rs as [|r rs IH]; intros d; [reflexivity|].
  cbn [ins_all]. rewrite (exec_insert_same_ident T T' cols r d H).
  destruct (exec_sf _ d) as [[x|e] d1]; auto.
Qed.

Lemma key_via_same T T' cols r :
  sf_fold T = sf_fold T' -> key_via T cols r = key_via T' cols r.
Proof. intros H. unfold key_via. rewrite (sf_fold_pk_name _ _ H). reflexivity. Qed.

Lemma max_pk_no_ident T d : sf_ident T = None -> exists e, max_pk d T = Err e.
Proof. unfold max_pk, max_raw; intros ->; eauto. Qed.

Lemma select_where_inv db cols T pk W rs :
  select_where db cols T pk W = Ok rs ->
  exists t idxs k ip fs,
    pg_idents cols = Some (map pg_fold cols) /\ pg_ident pk = Some k /\
    resolve db T = Some t /\ index_all (scols t) (map pg_fold cols) = Some idxs /\
    index_of k (scols t) = Some ip /\
    filter_res (fun r => sql_gt (nth ip r VNull) W) (srows t) = Some fs /\
    rs = map (project idxs) fs.
Proof.
  unfold select_where.
  destruct (pg_idents cols) as [cs|] eqn:E0; [|discriminate].
  destruct (pg_ident T) as [n|] eqn:En; [|discriminate].
  destruct (pg_ident pk) as [k|] eqn:Ek; [|discriminate].
  pose proof (pg_idents_map _ _ E0) as ->.
  destruct (resolve db T) as [t|] eqn:E1; [|discriminate].
  destruct (index_all (scols t) _) as [idxs|] eqn:E2; [|discriminate].
  destruct (index_of k (scols t)) as [ip|] eqn:E3; [|discriminate].
  destruct (filter_res _ (srows t)) as [fs|] eqn:E; [|discriminate].
  intros H; injection H as <-. exists t, idxs, k, ip, fs; auto 10.
Qed.

Lemma sql_gt_true v W : sql_gt v W = Some true -> exists z, v = VInt z /\ W < z.
Proof.
  destruct v as [z| |]; simpl; try discriminate.
  intros H; injection H as H. apply Z.ltb_lt in H; eauto.
Qed.

(** Through the discovered column list, a projected row carries the
    source row's value of any column. *)
Lemma project_at cols l idxs f k c i :
  index_all l cols = Some idxs -> nth_error cols k = Some c ->
  index_of c l = Some i -> nth k (project idxs f) VNull = nth i f VNull.
Proof.
  intros Hall Hk Hi.
  destruct (index_all_nth l cols idxs k c Hall Hk) as [i' [Hi' Hk']].
  rewrite Hi in Hi'; injection Hi' as <-.
  unfold project. erewrite nth_map_error; eauto.
Qed.

Lemma select_key db cols T W rs r :
  select_where db cols T (pk_name T) W = Ok rs -> In r rs ->
  key_above W (key_via T cols r).
Proof.
  intros H Hr.
  destruct (select_where_inv _ _ _ _ _ _ H)
    as (t & idxs & kp & ip & fs & _ & Hk & _ & Hall & Hip & Hf & ->).
  apply in_map_iff in Hr as [f [<- Hf']].
  apply (filter_res_in _ _ _ f Hf) in Hf' as [_ Hgt].
  apply sql_gt_true in Hgt as [z [Hz HW]].
  unfold key_via.
  destruct (index_of (sf_fold (pk_name T)) (map sf_fold cols)) as [k|] eqn:Ek;
    [|left; reflexivity].
  right; exists z; split; [|exact HW].
  apply index_of_some in Ek. rewrite nth_error_map in Ek.
  destruct (nth_error cols k) as [ck|] eqn:Eck; [|discriminate].
  injection Ek as Ek.
  rewrite <- Hz. eapply project_at; [exact Hall| |].
  - rewrite nth_error_map, Eck; reflexivity.
  - rewrite (sf_fold_pg_fold _ _ Ek), <- (pg_ident_fold _ _ Hk); exact Hip.
Qed.

Lemma max_pk_insert_same T cols r d res d' b c :
  exec_sf (SInsert T cols r) d = (res, d') ->
  wm_inv T c d b -> key_above c (key_via T cols r) ->
  exists b', wm_inv T c d' b' /\ b <= b' /\
    (forall x, res = Ok x -> forall z, key_via T cols r = VInt z -> z <= b').
Proof.
  intros He Hinv Hkey.
  destruct (exec_insert_cases _ _ _ _ _ _ He)
    as [[-> [e ->]]|[-> [t (Ht & _ & _ & _ & _ & _ & _ & ->)]]].
  - exists b; split; [exact Hinv|split; [lia|discriminate]].
  - destruct Hinv as (Hb & Hcb & Hnone).
    unfold wm_inv, max_pk, max_raw in *.
    rewrite (lookup_update_same _ _ _ _ Ht). rewrite Ht in Hb, Hnone.
    destruct (sf_ident T) as [nT|]; [|discriminate].
    destruct (sf_ident (pk_name T)) as [kp|] eqn:Ekp; [|discriminate].
    rewrite (sf_ident_fold _ _ Ekp) in *.
    unfold add_row; cbn [dcols drows].
    destruct (index_of (sf_fold (pk_name T)) (dcols t)) as [i|] eqn:Ei; [|discriminate].
    rewrite map_app; cbn [map]. rewrite sql_max_snoc.
    rewrite (build_row_at _ _ _ _ _ Ei). fold (key_via T cols r).
    unfold row in *.
    destruct (sql_max (map (fun r0 : list value => nth i r0 VNull) (drows t))) as [o|e];
      [|discriminate].
    destruct Hkey as [Hn|[z [Hz Hcz]]].
    + rewrite Hn. exists b; split; [auto|split; [lia|]].
      intros _ _ z' Hz'; congruence.
    + rewrite Hz. destruct o as [m|]; injection Hb as <-.
      * exists (Z.max z m); split; [split; [reflexivity|split; [lia|discriminate]]|split; [lia|]].
        intros _ _ z' Hz'; injection Hz' as ->; lia.
      * specialize (Hnone eq_refl).
        exists z; split; [split; [reflexivity|split; [lia|discriminate]]|split; [lia|]].
        intros _ _ z' Hz'; injection Hz' as ->; lia.
Qed.

Lemma ins_all_mono T cols rs d c b :
  wm_inv T c d b ->
  (forall r, In r rs -> key_above c (key_via T cols r)) ->
  exists b', wm_inv T c (snd (ins_all T cols rs d)) b' /\ b <= b' /\
    (fst (ins_all T cols rs d) = Ok tt ->
     forall r z, In r rs -> key_via T cols r = VInt z -> z <= b').
Proof.
  revert d b; induction rs as [|r rs IH]; intros d b Hb Hall.
  - exists b; simpl; split; [exact Hb|split; [lia|]]. intros _ r z [].
  - cbn [ins_all].
    destruct (exec_sf (SInsert T cols r) d) as [res d1] eqn:E.
    destruct (max_pk_insert_same _ _ _ _ _ _ _ c E Hb (Hall r (or_introl eq_refl)))
      as [b1 [Hb1 [Hbb1 Hr]]].
    destruct res as [x|e].
    + destruct (IH d1 b1 Hb1 (fun r' H => Hall r' (or_intror H)))
        as [b' [Hb' [Hb1b' Hrest]]].
      exists b'; split; [exact Hb'|split; [lia|]].
      intros Hok r' z [<-|Hin] Hz.
      * specialize (Hr x eq_refl z Hz); lia.
      * exact (Hrest Hok r' z Hin Hz).
    + exists b1; split; [exact Hb1|split; [exact Hbb1|discriminate]].
Qed.

Lemma ins_all_other T T' cols rs d :
  sf_ident T <> sf_ident T' -> lookup T (snd (ins_all T' cols rs d)) = lookup T d.
Proof.
  intros Hne; revert d; induction rs as [|r rs IH]; intros d; [reflexivity|].
  cbn [ins_all].
  destruct (exec_sf (SInsert T' cols r) d) as [res d1] eqn:E.
  assert (Hd1 : lookup T d1 = lookup T d).
  { destruct (exec_insert_cases _ _ _ _ _ _ E) as [[-> _]|[_ [t (_ & _ & _ & _ & _ & _ & _ & ->)]]];
      [reflexivity|apply lookup_update_other; exact Hne]. }
  destruct res; [rewrite IH|]; exact Hd1.
Qed.

Lemma pipeline_cases T w r w' :
  pipeline T w = (r, w') ->
  pg w' = pg w /\
  ((exists e, r = Err e) /\ sf w' = sf w \/
   exists c rs, max_pk (sf w) T = Ok c /\
     select_where (pg w) (discovered_columns (pg w) T) T (pk_name T) c = Ok rs /\
     sf w' = snd (ins_all T (discovered_columns (pg w) T) rs (sf w)) /\
     r = fst (ins_all T (discovered_columns (pg w) T) rs (sf w))).
Proof.
  unfold pipeline, bind at 1. rewrite get_max_eq.
  destruct (max_pk (sf w) T) as [c|e] eqn:Ec;
    [|intros H; injection H as <- <-; split; [reflexivity|left; eauto]].
  rewrite load_eq; cbn [pg sf log].
  destruct (select_where (pg w) _ T (pk_name T) c) as [rs|e] eqn:Es;
    [|intros H; injection H as <- <-; split; [reflexivity|left; eauto]].
  destruct (insert_rows_spec T (discovered_columns (pg w) T) rs
              {| pg := pg w; sf := sf w;
                 log := (log w ++ [SMax (pk_name T) T]) ++
                        [SCatalog T; SSelect (discovered_columns (pg w) T) T (pk_name T) c] |})
    as [k [_ [_ ->]]].
  intros H; injection H as <- <-; cbn [pg sf].
  split; [reflexivity|right; exists c, rs; auto].
Qed.

Lemma max_pk_wm_inv T d a : max_pk d T = Ok a -> wm_inv T a d a.
Proof.
  unfold wm_inv, max_pk; intros H; split; [exact H|split; [lia|]].
  intros Hn; rewrite Hn in H; injection H as <-; reflexivity.
Qed.

Lemma pipeline_watermark T T' w r w' a :
  pipeline T' w = (r, w') -> max_pk (sf w) T = Ok a ->
  exists b, max_pk (sf w') T = Ok b /\ a <= b.
Proof.
  intros Hp Ha.
  destruct (pipeline_cases _ _ _ _ Hp) as [_ [[_ ->]|(c & rs & Hc & Hs & -> & _)]];
    [exists a; split; [exact Ha|lia]|].
  destruct (sf_ident T) as [n|] eqn:En;
    [|destruct (max_pk_no_ident T (sf w) En) as [e He]; congruence].
  destruct (sf_ident T') as [n'|] eqn:En';
    [destruct (String.eqb_spec n n') as [<-|Hne]|].
  - assert (Ef : sf_fold T = sf_fold T') by
      (rewrite <- (sf_ident_fold _ _ En), <- (sf_ident_fold _ _ En'); reflexivity).
    rewrite <- (max_pk_same_ident _ _ _ Ef), Ha in Hc; injection Hc as <-.
    rewrite <- (ins_all_same_ident T T') by congruence.
    assert (Hk : forall r', In r' rs ->
                 key_above a (key_via T (discovered_columns (pg w) T') r')).
    { intros r' H; rewrite (key_via_same _ _ _ _ Ef); exact (select_key _ _ _ _ _ _ Hs H). }
    destruct (ins_all_mono T (discovered_columns (pg w) T') rs (sf w) a a
                (max_pk_wm_inv _ _ _ Ha) Hk)
      as [b [[Hb _] [Hab _]]].
    eauto.
  - exists a; split; [|lia].
    rewrite <- Ha. apply max_pk_lookup, ins_all_other; congruence.
  - exists a; split; [|lia].
    rewrite <- Ha. apply max_pk_lookup, ins_all_other; congruence.
Qed.

Lemma steps_watermark T w w' a :
  steps w w' -> max_pk (sf w) T = Ok a ->
  exists b, max_pk (sf w') T = Ok b /\ a <= b.
Proof.
  intros Hs; revert a; induction Hs as [w|w1 w2 w3 Hstep Hs IH]; intros a Ha.
  - exists a; split; [exact Ha|lia].
  - destruct Hstep as [T' w r w' Hp|w db].
    + destruct (pipeline_watermark T T' _ _ _ _ Hp Ha) as [b [Hb Hab]].
      destruct (IH b Hb) as [b' [Hb' Hbb']]; exists b'; split; [exact Hb'|lia].
    + exact (IH a Ha).
Qed.

Lemma resolve_in_stables db T t :
  resolve db T = Some t -> In t (stables db) /\ pg_ident T = Some (sname t).
Proof.
  unfold resolve; destruct (pg_ident T) as [n|]; [|discriminate].
  induction (search_path db) as [|s path IH]; simpl; [discriminate|].
  destruct (find _ (stables db)) as [t'|] eqn:E; [|exact IH].
  intros H; injection H as <-.
  apply find_some in E as [Hin Heq].
  apply andb_true_iff in Heq as [_ Heq]. apply String.eqb_eq in Heq; subst; auto.
Qed.

Lemma discovered_columns_in db T t c :
  In t (stables db) -> sname t = T -> In c (scols t) ->
  In c (discovered_columns db T).
Proof.
  intros Ht Hn Hc. unfold discovered_columns.
  apply in_map_iff. exists (sschema t, sname t, c); split; [reflexivity|].
  apply filter_In; split; [|apply String.eqb_eq; exact Hn].
  unfold catalog. apply in_flat_map. exists t; split; [exact Ht|].
  apply in_map_iff; eauto.
Qed.

(** ** Claims *)


Lemma index_all_length l cols idxs :
  index_all l cols = Some idxs -> length idxs = length cols.
Proof.
  revert idxs; induction cols as [|c cs IH]; simpl; intros idxs H.
  - injection H as <-; reflexivity.
  - destruct (index_of c l); [|discriminate].
    destruct (index_all l cs) as [is|]; [|discriminate].
    injection H as <-; simpl; f_equal; auto.
Qed.

Lemma index_all_self l :
  NoDup l -> exists idxs, index_all l l = Some idxs /\
    forall r, length r = length l -> project idxs r = r.
Proof.
  intros Hnd.
  assert (Hex : forall cols, incl cols l -> exists idxs, index_all l cols = Some idxs).
  { induction cols as [|c cs IH]; intros Hincl; simpl; [eauto|].
    destruct (index_of_in c l (Hincl c (or_introl eq_refl))) as [i ->].
    destruct IH as [is ->]; [intros x Hx; apply Hincl; right; exact Hx|eauto]. }
  destruct (Hex l (incl_refl l)) as [idxs Hidxs].
  exists idxs; split; [exact Hidxs|].
  intros r Hr. apply nth_ext with (d := VNull) (d' := VNull).
  - unfold project; rewrite length_map, (index_all_length _ _ _ Hidxs); lia.
  - intros n Hn. unfold project in Hn; rewrite length_map, (index_all_length _ _ _ Hidxs) in Hn.
    destruct (nth_error l n) as [c|] eqn:Ec;
      [|apply nth_error_Some in Ec; [contradiction|exact Hn]].
    eapply project_at; [exact Hidxs|exact Ec|].
    apply index_of_nodup; assumption.
Qed.

(** C1 (exact delta extraction), corrected.  When the catalog lists
    exactly the columns of the table the name resolves to (the table
    exists in one schema), and these columns carry names as Postgres
    stores unquoted identifiers (plain, lower-case, not reserved), the
    extraction query of [load_incremental_data T W] returns exactly the
    source rows whose key [ID_T] (the column it denotes) is strictly
    greater than [W]. *)
Theorem extraction_exact T W db t k ip :
  resolve db T = Some t ->
  discovered_columns db T = scols t ->
  NoDup (scols t) ->
  Forall (fun c => pg_ident c = Some c) (scols t) ->
  pg_ident (pk_name T) = Some k ->
  index_of k (scols t) = Some ip ->
  (forall r, In r (srows t) -> length r = length (scols t)) ->
  (forall r, In r (srows t) -> exists z, nth ip r VNull = VInt z) ->
  exists rs,
    exec_pg (SSelect (discovered_columns db T) T (pk_name T) W) db = Ok rs /\
    forall r, In r rs <-> In r (srows t) /\ exists z, nth ip r VNull = VInt z /\ W < z.
Proof.
  intros Hres Hdisc Hnd Hplain Hk Hip Hlen Hint.
  destruct (index_all_self _ Hnd) as [idxs [Hidxs Hproj]].
  assert (Hdef : exists fs,
             filter_res (fun r => sql_gt (nth ip r VNull) W) (srows t) = Some fs).
  { clear Hlen. induction (srows t) as [|x xs IH]; simpl; [eauto|].
    destruct (Hint x (or_introl eq_refl)) as [z Hz]. rewrite Hz; simpl.
    destruct IH as [fs ->]; [intros r Hr; apply Hint; right; exact Hr|eauto]. }
  destruct Hdef as [fs Hfs].
  destruct (resolve_in_stables _ _ _ Hres) as [_ HT].
  exists (map (project idxs) fs). split.
  { simpl; unfold select_where.
    rewrite Hdisc, (pg_idents_self _ Hplain), HT, Hk. cbn beta iota.
    rewrite Hres, Hidxs, Hip, Hfs. reflexivity. }
  assert (Hmap : map (project idxs) fs = fs).
  { rewrite <- map_id. apply map_ext_in. intros r Hr.
    apply Hproj, Hlen. apply (filter_res_in _ _ _ r Hfs) in Hr; tauto. }
  rewrite Hmap. intros r. rewrite (filter_res_in _ _ _ r Hfs).
  split; intros [Hr H]; split; auto.
  - apply sql_gt_true; exact H.
  - destruct H as [z [Hz HW]]. rewrite Hz; simpl; f_equal; apply Z.ltb_lt; exact HW.
Qed.

(** C2 (watermark reader).  On a destination table whose key column (the
    column the unquoted name [ID_T] denotes in Snowflake) holds integers,
    [get_max_primary_key T] returns the largest key, and 0 when the table
    has no rows. *)
Theorem get_max_primary_key_spec T w t k i :
  lookup T (sf w) = Some t ->
  sf_ident (pk_name T) = Some k ->
  index_of k (dcols t) = Some i ->
  (forall r, In r (drows t) -> exists z, nth i r VNull = VInt z) ->
  exists m, fst (get_max_primary_key T w) = Ok m /\
    (drows t = [] -> m = 0) /\
    (drows t <> [] ->
       (exists r, In r (drows t) /\ nth i r VNull = VInt m) /\
       forall r z, In r (drows t) -> nth i r VNull = VInt z -> z <= m).
Proof.
  intros Ht Hk Hi Hint.
  rewrite get_max_eq; cbn [fst]. unfold max_pk, max_raw.
  destruct (lookup_ident _ _ _ Ht) as [n Hn]. rewrite Hn, Hk, Ht, Hi.
  destruct (sql_max_ints (map (fun r => nth i r VNull) (drows t))) as [o Ho].
  { intros v Hv. apply in_map_iff in Hv as [r [<- Hr]]. auto. }
  unfold row in *. rewrite Ho.
  destruct o as [m|].
  - exists m; split; [reflexivity|split].
    + intros Hnil. rewrite Hnil in Ho; discriminate.
    + intros _. split.
      * apply sql_max_attained, in_map_iff in Ho as [r [Hr Hin]]; eauto.
      * intros r z Hr Hz.
        destruct (sql_max_upper _ _ z Ho) as [m' [Hm' Hle]];
          [rewrite <- Hz; apply (in_map (fun r0 : list value => nth i r0 VNull)); exact Hr|].
        injection Hm' as <-; exact Hle.
  - exists 0; split; [reflexivity|split; [reflexivity|]].
    intros Hne. destruct (drows t) as [|r rs] eqn:Hd; [contradiction|].
    destruct (Hint r (or_introl eq_refl)) as [z Hz].
    destruct (sql_max_upper _ _ z Ho) as [m' [Hm' _]]; [|discriminate].
    rewrite <- Hz; left; reflexivity.
Qed.

(** C5 (monotonic watermark).  Across any sequence of pipeline runs (of
    any table, successful or not) and changes of the source, the
    watermark a later successful read returns is at least the one an
    earlier successful read returned. *)
Theorem watermark_monotone T w w' a b :
  steps w w' ->
  fst (get_max_primary_key T w) = Ok a ->
  fst (get_max_primary_key T w') = Ok b ->
  a <= b.
Proof.
  rewrite !get_max_eq; cbn [fst]. intros Hs Ha Hb.
  destruct (steps_watermark _ _ _ _ Hs Ha) as [b' [Hb' Hab]].
  rewrite Hb in Hb'; injection Hb' as ->; exact Hab.
Qed.

(** C8 (read-only watermark).  [get_max_primary_key T] leaves both stores
    as they were; it only issues the aggregate query. *)
Theorem get_max_primary_key_read_only T w :
  pg (snd (get_max_primary_key T w)) = pg w /\
  sf (snd (get_max_primary_key T w)) = sf w /\
  log (snd (get_max_primary_key T w)) = log w ++ [SMax (pk_name T) T].
Proof.
  rewrite get_max_eq; cbn [snd pg sf log]; auto.
Qed.

Lemma in_firstn {A} (x : A) n l : In x (firstn n l) -> In x l.
Proof.
  intros H. rewrite <- (firstn_skipn n l). apply in_or_app; left; exact H.
Qed.

Lemma ins_all_err T cols rs d e d' :
  ins_all T cols rs d = (Err e, d') ->
  exists i, (i < length rs)%nat /\ ins_all T cols (firstn i rs) d = (Ok tt, d') /\
    fst (exec_sf (SInsert T cols (nth i rs [])) d') = Err e.
Proof.
  revert d; induction rs as [|r rs IH]; intros d; cbn [ins_all]; [discriminate|].
  destruct (exec_sf (SInsert T cols r) d) as [[x|e'] d1] eqn:E.
  - intros H. destruct (IH d1 H) as [i [Hi [Hpre Hfail]]].
    exists (S i); split; [cbn [length]; lia|split; [|exact Hfail]].
    cbn [firstn ins_all]. rewrite E. exact Hpre.
  - intros H; injection H as -> ->.
    destruct (exec_insert_cases _ _ _ _ _ _ E) as [[-> _]|[Hx _]]; [|discriminate].
    exists O; split; [cbn [length]; lia|split; [reflexivity|]].
    cbn [nth]. rewrite E; reflexivity.
Qed.

Lemma ins_all_ok_rows T cols rs d d' tb :
  ins_all T cols rs d = (Ok tt, d') -> lookup T d = Some tb ->
  lookup T d' = Some {| dname := dname tb; dcols := dcols tb; dnotnull := dnotnull tb;
                        drows := drows tb ++ map (build_row (dcols tb) cols) rs |}.
Proof.
  revert d tb; induction rs as [|r rs IH]; intros d tb; cbn [ins_all map].
  - intros H Ht; injection H as <-. rewrite app_nil_r, Ht. destruct tb; reflexivity.
  - destruct (exec_sf (SInsert T cols r) d) as [[x|e] d1] eqn:E; [|discriminate].
    intros H Ht.
    destruct (exec_insert_cases _ _ _ _ _ _ E) as [[_ [e He]]|[_ [t (Ht' & _ & _ & _ & _ & _ & _ & ->)]]];
      [discriminate|].
    rewrite Ht in Ht'; injection Ht' as <-.
    rewrite (IH _ _ H (lookup_update_same _ _ _ _ Ht)).
    unfold add_row; cbn [dname dcols dnotnull drows]. rewrite <- app_assoc; reflexivity.
Qed.

Lemma ins_all_ok_nonempty T cols rs d d' :
  ins_all T cols rs d = (Ok tt, d') -> rs <> [] -> exists tb, lookup T d = Some tb.
Proof.
  destruct rs as [|r rs]; [contradiction|]; cbn [ins_all]; intros H _.
  destruct (exec_sf (SInsert T cols r) d) as [[x|e] d1] eqn:E; [|discriminate].
  destruct (exec_insert_cases _ _ _ _ _ _ E) as [[_ [e He]]|[_ [t (Ht & _)]]];
    [discriminate|eauto].
Qed.

Lemma discovered_columns_eq db T :
  discovered_columns db T =
  flat_map (fun t => if String.eqb (sname t) T then scols t else []) (stables db).
Proof.
  unfold discovered_columns, catalog.
  induction (stables db) as [|t ts IH]; [reflexivity|].
  cbn [flat_map]. rewrite filter_app, map_app, IH. f_equal.
  destruct (String.eqb (sname t) T) eqn:E.
  - induction (scols t) as [|c cs IHc]; [reflexivity|]. simpl. rewrite E; simpl; f_equal; exact IHc.
  - induction (scols t) as [|c cs IHc]; [reflexivity|]. simpl. rewrite E; exact IHc.
Qed.

(** C3 (column fidelity).  One run of [load_incremental_data T W] issues
    the catalog query, then the extraction with the discovered column list
    [cols], then only INSERTs into [T] with that same list [cols]; each
    inserted row holds, at position [k], the value of a source row of [T]
    in the column the name [cols[k]] denotes in Postgres, and the INSERT
    stores the value at position [k] in the destination column the name
    [cols[k]] denotes in Snowflake. *)
Theorem column_fidelity T W w :
  let cols := discovered_columns (pg w) T in
  exists ins,
    log (snd (load_incremental_data T W w)) =
      log w ++ SCatalog T :: SSelect cols T (pk_name T) W :: ins /\
    Forall (fun s => exists rw, s = SInsert T cols rw /\
       (exists t sr, resolve (pg w) T = Some t /\ In sr (srows t) /\
          forall k c, nth_error cols k = Some c ->
            exists c' j, pg_ident c = Some c' /\ index_of c' (scols t) = Some j /\
                         nth k rw VNull = nth j sr VNull) /\
       (forall dcs k c j, NoDup (map sf_fold cols) -> nth_error cols k = Some c ->
          index_of (sf_fold c) dcs = Some j ->
          nth j (build_row dcs cols rw) VNull = nth k rw VNull))
      ins.
Proof.
  intros cols. rewrite load_eq. cbv zeta. fold cols.
  destruct (select_where (pg w) cols T (pk_name T) W) as [rs|e] eqn:Es.
  2:{ exists []; split; [cbn [snd log]; reflexivity|constructor]. }
  destruct (insert_rows_spec T cols rs
              {| pg := pg w; sf := sf w;
                 log := log w ++ [SCatalog T; SSelect cols T (pk_name T) W] |})
    as [k [_ [_ ->]]].
  exists (map (SInsert T cols) (firstn k rs)).
  split; [cbn [snd log]; rewrite <- app_assoc; reflexivity|].
  apply Forall_forall. intros s Hs.
  apply in_map_iff in Hs as [rw [<- Hrw]].
  apply in_firstn in Hrw.
  destruct (select_where_inv _ _ _ _ _ _ Es)
    as (t & idxs & kp & ip & fs & Hcs & _ & Hres & Hall & Hip & Hf & ->).
  apply in_map_iff in Hrw as [f [<- Hfin]].
  exists (project idxs f); split; [reflexivity|split].
  - exists t, f; split; [exact Hres|split].
    + apply (filter_res_in _ _ _ f Hf) in Hfin; tauto.
    + intros k' c Hk'.
      destruct (pg_idents_nth _ _ _ _ Hcs Hk') as [c' [Hc' Hk'']].
      destruct (index_all_nth _ _ _ _ _ Hall Hk'') as [j [Hj Hidx]].
      exists c', j; split; [exact Hc'|split; [exact Hj|]]. unfold project.
      exact (nth_map_error (fun i => nth i f VNull) idxs k' j VNull Hidx).
  - intros dcs k' c j Hnd Hk' Hj.
    rewrite (build_row_at _ _ _ _ _ Hj).
    rewrite (index_of_nodup _ _ _ Hnd (map_nth_error sf_fold _ _ Hk')); reflexivity.
Qed.


(** C7 (row-at-a-time, no rollback).  When the extraction of
    [load_incremental_data T W] returned [rs] and the run fails, it failed
    at the INSERT of some row [i]; rows [0 .. i-1] stay appended to the
    destination table, and the watermark any later run reads is at least
    the key of each of them. *)
Theorem partial_failure_keeps_prefix T W w rs e :
  let cols := discovered_columns (pg w) T in
  exec_pg (SSelect cols T (pk_name T) W) (pg w) = Ok rs ->
  fst (load_incremental_data T W w) = Err e ->
  exists i, (i < length rs)%nat /\
    fst (exec_sf (SInsert T cols (nth i rs [])) (sf (snd (load_incremental_data T W w))))
      = Err e /\
    (forall tb, lookup T (sf w) = Some tb ->
       lookup T (sf (snd (load_incremental_data T W w))) =
       Some {| dname := dname tb; dcols := dcols tb; dnotnull := dnotnull tb;
               drows := drows tb ++ map (build_row (dcols tb) cols) (firstn i rs) |}) /\
    (forall r z b, In r (firstn i rs) -> key_via T cols r = VInt z ->
       fst (get_max_primary_key T (snd (load_incremental_data T W w))) = Ok b -> z <= b).
Proof.
  intros cols Hsel. cbn [exec_pg] in Hsel.
  rewrite load_eq. cbv zeta. fold cols. rewrite Hsel.
  destruct (insert_rows_spec T cols rs
              {| pg := pg w; sf := sf w;
                 log := log w ++ [SCatalog T; SSelect cols T (pk_name T) W] |})
    as [k [_ [_ ->]]].
  cbn [fst snd sf]. intros Herr.
  destruct (ins_all T cols rs (sf w)) as [res d'] eqn:Hins. cbn [fst snd] in *. subst res.
  destruct (ins_all_err _ _ _ _ _ _ Hins) as [i [Hi [Hpre Hfail]]].
  exists i; split; [exact Hi|split; [exact Hfail|split]].
  - intros tb Htb. exact (ins_all_ok_rows _ _ _ _ _ _ Hpre Htb).
  - intros r z b Hr Hz Hb.
    destruct (ins_all_ok_nonempty _ _ _ _ _ Hpre ltac:(intros Hn; rewrite Hn in Hr; contradiction))
      as [tb Htb].
    pose proof (ins_all_ok_rows _ _ _ _ _ _ Hpre Htb) as Hd'.
    rewrite get_max_eq in Hb. cbn [fst sf] in Hb.
    unfold max_pk, max_raw in Hb. rewrite Hd' in Hb. cbn [dcols drows] in Hb.
    revert Hb. destruct (sf_ident T) as [nT|]; [|discriminate].
    destruct (sf_ident (pk_name T)) as [kp|] eqn:Ekp; [|discriminate].
    rewrite (sf_ident_fold _ _ Ekp). intros Hb.
    destruct (index_of (sf_fold (pk_name T)) (dcols tb)) as [j|] eqn:Hj; [|discriminate].
    destruct (sql_max _) as [o|e'] eqn:Ho; [|discriminate].
    destruct (sql_max_upper _ _ z Ho) as [m [-> Hzm]].
    + rewrite map_app. apply in_or_app; right. rewrite map_map.
      rewrite <- Hz. unfold key_via.
      rewrite <- (build_row_at _ (dcols tb) cols r j Hj).
      apply (in_map (fun x => nth j (build_row (dcols tb) cols x) VNull)); exact Hr.
    + injection Hb as <-; exact Hzm.
Qed.

(** C9 (one INSERT per extracted row).  A successful run of
    [load_incremental_data T W] executes, after the two queries, exactly
    one INSERT per row [rs] of the extraction, in the order of [rs]; so
    their number is the number of rows, and distinct rows give distinct
    INSERTs. *)
Theorem insert_per_row T W w rs :
  let cols := discovered_columns (pg w) T in
  exec_pg (SSelect cols T (pk_name T) W) (pg w) = Ok rs ->
  fst (load_incremental_data T W w) = Ok tt ->
  log (snd (load_incremental_data T W w)) =
    log w ++ [SCatalog T; SSelect cols T (pk_name T) W] ++ map (SInsert T cols) rs /\
  length (filter is_insert (map (SInsert T cols) rs)) = length rs /\
  (NoDup rs -> NoDup (map (SInsert T cols) rs)).
Proof.
  intros cols Hsel. cbn [exec_pg] in Hsel.
  rewrite load_eq. cbv zeta. fold cols. rewrite Hsel.
  destruct (insert_rows_spec T cols rs
              {| pg := pg w; sf := sf w;
                 log := log w ++ [SCatalog T; SSelect cols T (pk_name T) W] |})
    as [k [_ [Hk ->]]].
  cbn [fst snd sf log]. intros Hok.
  rewrite (Hk Hok), firstn_all, <- app_assoc.
  split; [reflexivity|split].
  - clear. induction rs as [|r rs IH]; [reflexivity|]. cbn; f_equal; exact IH.
  - clear. induction 1 as [|r rs Hr Hnd IH]; cbn [map]; constructor; [|exact IH].
    intros Hin. apply in_map_iff in Hin as [r' [Heq Hr']].
    injection Heq as ->. contradiction.
Qed.

(** C10 (unqualified column discovery).  The discovered column list is
    the concatenation, in catalog order, of the columns of every source
    table named [T], whatever its schema; and it is the list the
    extraction query of [load_incremental_data T W] uses. *)
Theorem column_discovery_unqualified T W w :
  discovered_columns (pg w) T =
    flat_map (fun t => if String.eqb (sname t) T then scols t else []) (stables (pg w)) /\
  (forall t, In t (stables (pg w)) -> sname t = T ->
     incl (scols t) (discovered_columns (pg w) T)) /\
  exists ins, log (snd (load_incremental_data T W w)) =
    log w ++ SCatalog T :: SSelect (discovered_columns (pg w) T) T (pk_name T) W :: ins.
Proof.
  split; [apply discovered_columns_eq|split].
  - intros t Ht Hn c Hc. apply (discovered_columns_in _ _ t); auto.
  - rewrite load_eq. cbv zeta.
    destruct (select_where (pg w) _ T (pk_name T) W) as [rs|e].
    + destruct (insert_rows_spec T (discovered_columns (pg w) T) rs
                  {| pg := pg w; sf := sf w;
                     log := log w ++ [SCatalog T;
                              SSelect (discovered_columns (pg w) T) T (pk_name T) W] |})
        as [k [_ [_ ->]]].
      cbn [snd log]. rewrite <- app_assoc. eexists; reflexivity.
    + exists []; reflexivity.
Qed.

(** ** The claims at concrete inputs *)

Section Witnesses.
Local Open Scope string_scope.
Import Samples.

Lemma extraction_exact_witness :
  exists rs,
    exec_pg (SSelect (discovered_columns ex_src "estados") "estados" (pk_name "estados") 3)
            ex_src = Ok rs /\
    forall r, In r rs <-> In r (srows ex_table) /\
                          exists z, nth 0 r VNull = VInt z /\ 3 < z.
Proof.
  apply (extraction_exact "estados" 3 ex_src ex_table "id_estados" 0%nat);
    [reflexivity|reflexivity|apply nodup_b_NoDup; reflexivity| |reflexivity|reflexivity| |].
  - apply Forall_forall; intros c Hc.
    repeat (destruct Hc as [<-|Hc]; [reflexivity|]); destruct Hc.
  - intros r Hr; repeat (destruct Hr as [<-|Hr]; [reflexivity|]); destruct Hr.
  - intros r Hr; repeat (destruct Hr as [<-|Hr]; [eexists; reflexivity|]); destruct Hr.
Defined.

Lemma get_max_primary_key_spec_witness :
  exists m, fst (get_max_primary_key "estados" ex_world) = Ok m /\
    (drows ex_dtable = [] -> m = 0) /\
    (drows ex_dtable <> [] ->
       (exists r, In r (drows ex_dtable) /\ nth 0 r VNull = VInt m) /\
       forall r z, In r (drows ex_dtable) -> nth 0 r VNull = VInt z -> z <= m).
Proof.
  apply (get_max_primary_key_spec "estados" ex_world ex_dtable "ID_ESTADOS" 0%nat);
    [reflexivity|reflexivity|reflexivity|].
  intros r Hr; repeat (destruct Hr as [<-|Hr]; [eexists; reflexivity|]); destruct Hr.
Defined.


Lemma watermark_monotone_witness :
  steps ex_world ex_world1 /\
  fst (get_max_primary_key "estados" ex_world) = Ok 3 /\
  fst (get_max_primary_key "estados" ex_world1) = Ok 5 /\
  3 <= 5.
Proof.
  assert (Hs : steps ex_world ex_world1).
  { eapply steps_cons; [|apply steps_refl].
    apply (step_run "estados" ex_world (Ok tt) ex_world1); reflexivity. }
  split; [exact Hs|split; [reflexivity|split; [reflexivity|]]].
  exact (watermark_monotone "estados" ex_world ex_world1 3 5 Hs eq_refl eq_refl).
Defined.


Lemma partial_failure_keeps_prefix_witness :
  let w' := snd (load_incremental_data "estados" 3 ex_world_null) in
  let cols := discovered_columns (pg ex_world_null) "estados" in
  let rs := [[VInt 4; VStr "AM"]; [VInt 5; VNull]] in
  fst (load_incremental_data "estados" 3 ex_world_null) =
    Err "NULL result in a non-nullable column" /\
  exists i, (i < length rs)%nat /\
    fst (exec_sf (SInsert "estados" cols (nth i rs [])) (sf w')) =
      Err "NULL result in a non-nullable column" /\
    (forall tb, lookup "estados" (sf ex_world_null) = Some tb ->
       lookup "estados" (sf w') =
       Some {| dname := dname tb; dcols := dcols tb; dnotnull := dnotnull tb;
               drows := (drows tb ++ map (build_row (dcols tb) cols) (firstn i rs))%list |}) /\
    (forall r z b, In r (firstn i rs) -> key_via "estados" cols r = VInt z ->
       fst (get_max_primary_key "estados" w') = Ok b -> z <= b).
Proof.
  cbv zeta. split; [reflexivity|].
  apply (partial_failure_keeps_prefix "estados" 3 ex_world_null
           [[VInt 4; VStr "AM"]; [VInt 5; VNull]] "NULL result in a non-nullable column");
    reflexivity.
Defined.

Lemma insert_per_row_witness :
  let cols := discovered_columns (pg ex_world) "estados" in
  let rs := [[VInt 4; VStr "AM"]; [VInt 5; VStr "BA"]] in
  log (snd (load_incremental_data "estados" 3 ex_world)) =
    (log ex_world ++ [SCatalog "estados"; SSelect cols "estados" (pk_name "estados") 3] ++
     map (SInsert "estados" cols) rs)%list /\
  length (filter is_insert (map (SInsert "estados" cols) rs)) = length rs /\
  (NoDup rs -> NoDup (map (SInsert "estados" cols) rs)).
Proof.
  cbv zeta.
  apply (insert_per_row "estados" 3 ex_world [[VInt 4; VStr "AM"]; [VInt 5; VStr "BA"]]);
    reflexivity.
Defined.

End Witnesses.

(** ** Further properties of the tasks and the DAG *)

Lemma pipeline_eq T w r w' :
  pipeline T w = (r, w') ->
  r = fst (pipeline_sf T (pg w) (sf w)) /\ sf w' = snd (pipeline_sf T (pg w) (sf w)) /\
  pg w' = pg w.
Proof.
  unfold pipeline, bind at 1, pipeline_sf. rewrite get_max_eq.
  destruct (max_pk (sf w) T) as [c|e];
    [|intros H; injection H as <- <-; auto].
  rewrite load_eq; cbn [pg sf log].
  destruct (select_where (pg w) _ T (pk_name T) c) as [rs|e];
    [|intros H; injection H as <- <-; auto].
  destruct (insert_rows_spec T (discovered_columns (pg w) T) rs
              {| pg := pg w; sf := sf w;
                 log := (log w ++ [SMax (pk_name T) T]) ++
                        [SCatalog T; SSelect (discovered_columns (pg w) T) T (pk_name T) c] |})
    as [k [_ [_ ->]]].
  intros H; injection H as <- <-; auto.
Qed.

Lemma exec_insert_local T cols r d e :
  lookup T d = lookup T e ->
  fst (exec_sf (SInsert T cols r) d) = fst (exec_sf (SInsert T cols r) e) /\
  lookup T (snd (exec_sf (SInsert T cols r) d)) = lookup T (snd (exec_sf (SInsert T cols r) e)).
Proof.
  intros H. unfold exec_sf.
  destruct (negb (Nat.eqb (length cols) (length r))); [cbn [fst snd]; split; congruence|].
  destruct cols as [|c0 cols0]; [cbn [fst snd]; split; congruence|].
  cbn beta iota.
  destruct (sf_ident T) as [n|]; [|cbn [fst snd]; split; congruence].
  destruct (sf_idents (c0 :: cols0)) as [cs|]; [|cbn [fst snd]; split; congruence].
  rewrite H.
  destruct (lookup T e) as [t|] eqn:Ht; [|cbn [fst snd]; split; congruence].
  destruct (negb (nodup_b cs)); [cbn [fst snd]; split; congruence|].
  destruct (negb (forallb (fun c => existsb (String.eqb c) (dcols t)) cs));
    [cbn [fst snd]; split; congruence|].
  destruct (negb (not_null_ok t (build_row (dcols t) (c0 :: cols0) r)));
    [cbn [fst snd]; split; congruence|].
  cbn [fst snd]. split; [reflexivity|].
  rewrite (lookup_update_same _ _ _ _ H).
  rewrite (lookup_update_same _ _ _ _ Ht). reflexivity.
Qed.

Lemma ins_all_local T cols rs d e :
  lookup T d = lookup T e ->
  fst (ins_all T cols rs d) = fst (ins_all T cols rs e) /\
  lookup T (snd (ins_all T cols rs d)) = lookup T (snd (ins_all T cols rs e)).
Proof.
  revert d e; induction rs as [|r rs IH]; intros d e H; [auto|].
  cbn [ins_all].
  destruct (exec_insert_local T cols r d e H) as [H1 H2].
  destruct (exec_sf (SInsert T cols r) d) as [r1 d1].
  destruct (exec_sf (SInsert T cols r) e) as [r2 e1].
  cbn [fst snd] in H1, H2. subst r2.
  destruct r1; [apply IH; exact H2|cbn; auto].
Qed.

Lemma pipeline_sf_local T db d e :
  lookup T d = lookup T e ->
  fst (pipeline_sf T db d) = fst (pipeline_sf T db e) /\
  lookup T (snd (pipeline_sf T db d)) = lookup T (snd (pipeline_sf T db e)).
Proof.
  intros H. unfold pipeline_sf. rewrite (max_pk_lookup _ _ _ H).
  destruct (max_pk e T) as [c|x]; [|cbn; auto].
  destruct (select_where _ _ _ _ _) as [rs|x]; [apply ins_all_local; exact H|cbn; auto].
Qed.

Lemma pipeline_sf_other T T' db d :
  sf_ident T <> sf_ident T' -> lookup T (snd (pipeline_sf T' db d)) = lookup T d.
Proof.
  intros Hne. unfold pipeline_sf.
  destruct (max_pk d T') as [c|x]; [|reflexivity].
  destruct (select_where _ _ _ _ _) as [rs|x]; [apply ins_all_other; exact Hne|reflexivity].
Qed.

(** X1 (frame of a pipeline).  The pipeline of a table [T'], whatever its
    outcome, never modifies the source store and leaves as it was every
    destination table that a name [X] denotes, unless Snowflake reads [X]
    and [T'] as the same identifier. *)
Theorem pipeline_frame T' w r w' :
  pipeline T' w = (r, w') ->
  pg w' = pg w /\
  forall X, sf_ident X <> sf_ident T' -> lookup X (sf w') = lookup X (sf w).
Proof.
  intros Hp. destruct (pipeline_eq _ _ _ _ Hp) as (_ & Hsf & Hpg).
  split; [exact Hpg|]. intros X HX. rewrite Hsf. apply pipeline_sf_other; exact HX.
Qed.

(** X2 (independent tables).  The pipelines of two tables whose names
    Snowflake reads as different identifiers commute: run in either order
    from the same world, each gets the same outcome, and every destination
    table ends with the same contents. *)
Theorem pipelines_commute T T' w r1 w1 r2 w12 r2' w2 r1' w21 :
  sf_ident T <> sf_ident T' ->
  pipeline T w = (r1, w1) -> pipeline T' w1 = (r2, w12) ->
  pipeline T' w = (r2', w2) -> pipeline T w2 = (r1', w21) ->
  r1 = r1' /\ r2 = r2' /\ pg w12 = pg w21 /\
  forall X, lookup X (sf w12) = lookup X (sf w21).
Proof.
  intros Hne H1 H12 H2 H21.
  destruct (pipeline_eq _ _ _ _ H1) as (Er1 & Ew1 & Pw1).
  destruct (pipeline_eq _ _ _ _ H12) as (Er2 & Ew12 & Pw12).
  destruct (pipeline_eq _ _ _ _ H2) as (Er2' & Ew2 & Pw2).
  destruct (pipeline_eq _ _ _ _ H21) as (Er1' & Ew21 & Pw21).
  rewrite Pw1 in Er2, Ew12. rewrite Pw2 in Er1', Ew21.
  assert (L1 : lookup T' (sf w1) = lookup T' (sf w))
    by (rewrite Ew1; apply pipeline_sf_other; auto).
  assert (L2 : lookup T (sf w2) = lookup T (sf w))
    by (rewrite Ew2; apply pipeline_sf_other; auto).
  destruct (pipeline_sf_local T' (pg w) _ _ L1) as [F1 G1].
  destruct (pipeline_sf_local T (pg w) _ _ L2) as [F2 G2].
  split; [congruence|split; [congruence|split; [congruence|]]].
  intros X. rewrite Ew12, Ew21.
  destruct (opt_string_dec (sf_ident X) (sf_ident T)) as [HT|HT].
  - rewrite !(lookup_same_ident X T) by exact HT.
    rewrite pipeline_sf_other by auto. rewrite G2, <- Ew1. reflexivity.
  - destruct (opt_string_dec (sf_ident X) (sf_ident T')) as [HT'|HT'].
    + rewrite !(lookup_same_ident X T') by exact HT'.
      rewrite G1, <- Ew2. rewrite pipeline_sf_other by congruence. reflexivity.
    + rewrite !pipeline_sf_other by auto. rewrite Ew1, Ew2, !pipeline_sf_other by auto.
      reflexivity.
Qed.

Lemma exec_insert_ok_nn T cols r d x d' :
  exec_sf (SInsert T cols r) d = (Ok x, d') ->
  exists t, lookup T d = Some t /\ not_null_ok t (build_row (dcols t) cols r) = true /\
    d' = update T (add_row (build_row (dcols t) cols r)) d.
Proof.
  intros H.
  destruct (exec_insert_cases _ _ _ _ _ _ H)
    as [[_ [e He]]|[_ [t (Ht & _ & _ & _ & _ & _ & Hn & ->)]]]; [discriminate|eauto].
Qed.

Lemma in_update T f d t' :
  In t' (update T f d) -> In t' d \/ exists t, lookup T d = Some t /\ t' = f t.
Proof.
  unfold lookup, update; destruct (sf_ident T) as [n|]; [|tauto].
  induction d as [|x d IH]; cbn [update_in find In]; [tauto|].
  destruct (String.eqb (dname x) n).
  - intros [<-|H]; [right; eauto|left; right; exact H].
  - intros [<-|H]; [left; left; reflexivity|].
    destruct (IH H) as [H'|H']; [left; right; exact H'|right; exact H'].
Qed.

Lemma lookup_in T d t : lookup T d = Some t -> In t d.
Proof.
  unfold lookup. destruct (sf_ident T); [|discriminate].
  intros H. exact (proj1 (find_some _ _ H)).
Qed.

Lemma dwf_insert T cols r d res d' :
  dwf d -> exec_sf (SInsert T cols r) d = (res, d') -> dwf d'.
Proof.
  intros Hwf E. destruct res as [x|e].
  - destruct (exec_insert_ok_nn _ _ _ _ _ _ E) as [t (Ht & Hn & ->)].
    intros t' Hin. destruct (in_update _ _ _ _ Hin) as [H|[t0 [Ht0 ->]]];
      [exact (Hwf t' H)|].
    rewrite Ht in Ht0; injection Ht0 as <-.
    intros r' Hr'. unfold add_row in Hr'; cbn [drows] in Hr'.
    apply in_app_or in Hr'. destruct Hr' as [Hr'|[<-|[]]].
    + exact (Hwf t (lookup_in _ _ _ Ht) r' Hr').
    + split; [unfold build_row; rewrite length_map; reflexivity|exact Hn].
  - destruct (exec_insert_cases _ _ _ _ _ _ E) as [[-> _]|[H _]]; [exact Hwf|discriminate].
Qed.

Lemma dwf_ins_all T cols rs d : dwf d -> dwf (snd (ins_all T cols rs d)).
Proof.
  revert d; induction rs as [|r rs IH]; intros d Hwf; [exact Hwf|].
  cbn [ins_all]. destruct (exec_sf (SInsert T cols r) d) as [[x|e] d1] eqn:E.
  - apply IH. exact (dwf_insert _ _ _ _ _ _ Hwf E).
  - exact (dwf_insert _ _ _ _ _ _ Hwf E).
Qed.

Lemma dwf_pipeline_sf T db d : dwf d -> dwf (snd (pipeline_sf T db d)).
Proof.
  intros Hwf. unfold pipeline_sf.
  destruct (max_pk d T) as [c|e]; [|exact Hwf].
  destruct (select_where _ _ _ _ _) as [rs|e]; [apply dwf_ins_all; exact Hwf|exact Hwf].
Qed.

(** X3 (destination well-formedness).  Over any run of the DAG, if every
    destination row has one value per column of its table and satisfies the
    table's NOT NULL constraints, this still holds afterwards. *)
Theorem steps_dwf w w' : steps w w' -> dwf (sf w) -> dwf (sf w').
Proof.
  induction 1 as [w|w1 w2 w3 Hs _ IH]; intros Hwf; [exact Hwf|].
  apply IH. destruct Hs as [T w r w' Hp|w db].
  - destruct (pipeline_eq _ _ _ _ Hp) as (_ & -> & _). apply dwf_pipeline_sf; exact Hwf.
  - exact Hwf.
Qed.

Lemma dtable_app_nil tb :
  {| dname := dname tb; dcols := dcols tb; dnotnull := dnotnull tb; drows := drows tb ++ [] |} = tb.
Proof. destruct tb; cbn; rewrite app_nil_r; reflexivity. Qed.

Lemma ins_all_prefix T cols rs d tb :
  lookup T d = Some tb ->
  exists extra, lookup T (snd (ins_all T cols rs d)) =
    Some {| dname := dname tb; dcols := dcols tb; dnotnull := dnotnull tb;
            drows := drows tb ++ extra |}.
Proof.
  revert d tb; induction rs as [|r rs IH]; intros d tb Ht.
  - exists []. rewrite dtable_app_nil. exact Ht.
  - cbn [ins_all]. destruct (exec_sf (SInsert T cols r) d) as [res d1] eqn:E.
    destruct (exec_insert_cases _ _ _ _ _ _ E)
      as [[-> [e ->]]|[-> [t (Ht' & _ & _ & _ & _ & _ & _ & ->)]]].
    + exists []. rewrite dtable_app_nil. exact Ht.
    + rewrite Ht in Ht'; injection Ht' as <-.
      destruct (IH _ _ (lookup_update_same T (build_row (dcols tb) cols r) d tb Ht))
        as [extra Hx].
      exists (build_row (dcols tb) cols r :: extra).
      rewrite Hx. unfold add_row; cbn [dname dcols dnotnull drows].
      rewrite <- app_assoc. reflexivity.
Qed.

Lemma step_prefix X w w' tb :
  step w w' -> lookup X (sf w) = Some tb ->
  exists extra, lookup X (sf w') =
    Some {| dname := dname tb; dcols := dcols tb; dnotnull := dnotnull tb;
            drows := drows tb ++ extra |}.
Proof.
  intros Hs Ht. destruct Hs as [T w r w' Hp|w db].
  - destruct (pipeline_eq _ _ _ _ Hp) as (_ & -> & _).
    destruct (opt_string_dec (sf_ident X) (sf_ident T)) as [HX|Hne].
    + rewrite (lookup_same_ident X T) in Ht |- * by exact HX.
      unfold pipeline_sf.
      destruct (max_pk (sf w) T) as [c|e]; [|exists []; rewrite dtable_app_nil; exact Ht].
      destruct (select_where _ _ _ _ _) as [rs|e];
        [apply ins_all_prefix; exact Ht|exists []; rewrite dtable_app_nil; exact Ht].
    + exists []. rewrite dtable_app_nil, pipeline_sf_other by exact Hne. exact Ht.
  - exists []. rewrite dtable_app_nil. exact Ht.
Qed.

(** X4 (append-only destination).  Over any run of the DAG, whatever the
    outcomes, a destination table keeps its name, columns and constraints,
    and its rows only grow at the end: the rows it had are a prefix of the
    rows it ends with. *)
Theorem steps_append_only X w w' tb :
  steps w w' -> lookup X (sf w) = Some tb ->
  exists extra, lookup X (sf w') =
    Some {| dname := dname tb; dcols := dcols tb; dnotnull := dnotnull tb;
            drows := drows tb ++ extra |}.
Proof.
  intros Hs; revert tb; induction Hs as [w|w1 w2 w3 Hs _ IH]; intros tb Ht.
  - exists []. rewrite dtable_app_nil. exact Ht.
  - destruct (step_prefix _ _ _ _ Hs Ht) as [e1 H1].
    destruct (IH _ H1) as [e2 H2]. cbn [dname dcols dnotnull drows] in H2.
    exists (e1 ++ e2). rewrite H2, app_assoc. reflexivity.
Qed.






Lemma string_app_inj_l (p a b : string) : (p ++ a)%string = (p ++ b)%string -> a = b.
Proof. induction p as [|ch p IH]; cbn; [auto|intros H; injection H; exact IH]. Qed.

Lemma get_max_id_neq_load_data a b : ("get_max_id_" ++ a)%string <> ("load_data_" ++ b)%string.
Proof. cbn. discriminate. Qed.

Lemma dag_ids_in x tns :
  In x (map task_id (dag_tasks tns)) ->
  exists tn, In tn tns /\ (x = ("get_max_id_" ++ tn)%string \/ x = ("load_data_" ++ tn)%string).
Proof.
  unfold dag_tasks. rewrite in_map_iff. intros [tk [<- Htk]].
  apply in_flat_map in Htk as [tn [Htn Htk]].
  exists tn. split; [exact Htn|]. cbn in Htk.
  destruct Htk as [<-|[<-|[]]]; cbn; auto.
Qed.

(** X6 (task ids).  For a list of distinct table names, the DAG's task ids
    [get_max_id_<table>] and [load_data_<table>] are pairwise distinct: two
    tasks per table, none shared between tables. *)
Theorem dag_task_ids_unique tns :
  NoDup tns -> NoDup (map task_id (dag_tasks tns)) /\ length (dag_tasks tns) = (2 * length tns)%nat.
Proof.
  induction 1 as [|tn tns Hn Hnd [IH IHl]]; [split; [constructor|reflexivity]|].
  split; [|unfold dag_tasks in *; cbn [flat_map table_tasks app length]; lia].
  change (dag_tasks (tn :: tns)) with (table_tasks tn ++ dag_tasks tns).
  rewrite map_app. cbn [table_tasks map task_id app].
  constructor; [|constructor; [|exact IH]].
  - intros [H|H]; [exact (get_max_id_neq_load_data _ _ (eq_sym H))|].
    destruct (dag_ids_in _ _ H) as [tn' [Htn' [E|E]]].
    + apply string_app_inj_l in E; subst; contradiction.
    + exact (get_max_id_neq_load_data _ _ E).
  - intros H. destruct (dag_ids_in _ _ H) as [tn' [Htn' [E|E]]].
    + exact (get_max_id_neq_load_data _ _ (eq_sym E)).
    + apply string_app_inj_l in E; subst; contradiction.
Qed.

(** X7 (task dependencies).  For a list of distinct table names, the only
    dependency of [load_data_<table>] is [get_max_id_<table>] of the same
    table. *)
Theorem dag_load_upstream tns tn :
  NoDup tns -> In tn tns ->
  filter (fun e => String.eqb (snd e) ("load_data_" ++ tn)) (dag_edges tns) =
  [(("get_max_id_" ++ tn)%string, ("load_data_" ++ tn)%string)].
Proof.
  induction 1 as [|tn0 tns Hn Hnd IH]; [intros []|].
  intros Hin. cbn [dag_edges map filter snd].
  destruct (String.eqb_spec ("load_data_" ++ tn0) ("load_data_" ++ tn)) as [E|E].
  - apply string_app_inj_l in E; subst tn0. f_equal.
    unfold dag_edges. clear IH Hin Hnd. induction tns as [|x tns IHt]; [reflexivity|].
    cbn [map filter snd].
    destruct (String.eqb_spec ("load_data_" ++ x) ("load_data_" ++ tn)) as [E|E].
    + apply string_app_inj_l in E; subst x. exfalso; apply Hn; left; reflexivity.
    + apply IHt. intros H; apply Hn; right; exact H.
  - destruct Hin as [->|Hin]; [contradiction|]. apply IH; exact Hin.
Qed.

Lemma sql_max_text vs s : In (VStr s) vs -> exists e, sql_max vs = Err e.
Proof.
  induction vs as [|v vs IH]; cbn [In sql_max]; [intros []|].
  intros [->|H].
  - destruct (sql_max vs) as [m|e]; eauto.
  - destruct (IH H) as [e ->]. eauto.
Qed.

Lemma sql_max_nulls vs : (forall v, In v vs -> v = VNull) -> sql_max vs = Ok None.
Proof.
  induction vs as [|v vs IH]; cbn [In sql_max]; intros H; [reflexivity|].
  rewrite IH by (intros x Hx; apply H; right; exact Hx).
  rewrite (H v (or_introl eq_refl)). reflexivity.
Qed.

(** X8 (unreadable watermark).  When the destination has no table that
    the name [T] denotes, or that table has no column that the unquoted
    name [ID_T] denotes, [get_max_primary_key] fails, and the table's
    pipeline fails without writing anything to the destination or the
    source. *)
Theorem pipeline_bad_destination T w r w' :
  (lookup T (sf w) = None \/
   (exists t, lookup T (sf w) = Some t /\
      forall k, sf_ident (pk_name T) = Some k -> index_of k (dcols t) = None)) ->
  pipeline T w = (r, w') ->
  (exists e, r = Err e) /\ sf w' = sf w /\ pg w' = pg w.
Proof.
  intros Hbad Hp. destruct (pipeline_cases _ _ _ _ Hp) as [Hpg [[He Hsf]|Hok]];
    [auto|exfalso].
  destruct Hok as [c [rs [Hmax _]]]. unfold max_pk, max_raw in Hmax.
  revert Hmax. destruct (sf_ident T) as [n|]; [|discriminate].
  destruct (sf_ident (pk_name T)) as [k|] eqn:Hk; [|discriminate].
  destruct Hbad as [Hn|[t [Ht Hi]]].
  - rewrite Hn; discriminate.
  - rewrite Ht, (Hi k eq_refl); discriminate.
Qed.

(** X9 (text key in the source).  When the source table the name resolves
    to has a text value in its key column (the column the unquoted name
    [ID_T] denotes), the extraction query fails, and the table's pipeline
    fails without writing anything. *)
Theorem pipeline_text_source_key T w r w' t k ip x s :
  resolve (pg w) T = Some t -> pg_ident (pk_name T) = Some k ->
  index_of k (scols t) = Some ip ->
  In x (srows t) -> nth ip x VNull = VStr s ->
  pipeline T w = (r, w') ->
  (exists e, r = Err e) /\ sf w' = sf w /\ pg w' = pg w.
Proof.
  intros Hres Hk Hip Hx Hs Hp. destruct (pipeline_cases _ _ _ _ Hp) as [Hpg [[He Hsf]|Hok]];
    [auto|exfalso].
  destruct Hok as [c [rs [_ [Hsel _]]]].
  destruct (select_where_inv _ _ _ _ _ _ Hsel)
    as (t' & idxs & k' & ip' & fs & _ & Hk' & Hres' & _ & Hip' & Hf & _).
  rewrite Hres in Hres'; injection Hres' as <-.
  rewrite Hk in Hk'; injection Hk' as <-.
  rewrite Hip in Hip'; injection Hip' as <-.
  apply (filter_res_defined _ _ _ x Hf Hx). cbn beta. rewrite Hs. reflexivity.
Qed.

(** X10 (NULL keys).  [MAX] skips NULLs: when every key of the destination
    table is NULL (in particular when the table is empty),
    [get_max_primary_key] returns 0, as for an empty table. *)
Theorem get_max_primary_key_null_keys T w t k i :
  lookup T (sf w) = Some t -> sf_ident (pk_name T) = Some k ->
  index_of k (dcols t) = Some i ->
  (forall x, In x (drows t) -> nth i x VNull = VNull) ->
  fst (get_max_primary_key T w) = Ok 0.
Proof.
  intros Ht Hk Hi Hn. rewrite get_max_eq. cbn [fst]. unfold max_pk, max_raw.
  destruct (lookup_ident _ _ _ Ht) as [n' Hn'].
  rewrite Hn', Hk, Ht, Hi, sql_max_nulls; [reflexivity|].
  intros v Hv. apply in_map_iff in Hv as [x [<- Hx]]. apply Hn, Hx.
Qed.

Lemma pipeline_fst_sf X w :
  fst (pipeline X w) = fst (pipeline_sf X (pg w) (sf w)) /\
  sf (snd (pipeline X w)) = snd (pipeline_sf X (pg w) (sf w)) /\
  pg (snd (pipeline X w)) = pg w.
Proof.
  destruct (pipeline X w) as [r w'] eqn:E. exact (pipeline_eq _ _ _ _ E).
Qed.

(** X11 (a run of the DAG).  For table names that Snowflake reads as
    distinct identifiers, running every table's pipeline in turn gives
    each table the outcome and the destination contents it would get if
    its pipeline ran alone on the initial world; the destination tables of
    other names and the source are untouched. *)
Theorem dag_run_independent tns w rs w' :
  NoDup (map sf_ident tns) -> dag_run tns w = (rs, w') ->
  rs = map (fun tn => fst (pipeline tn w)) tns /\ pg w' = pg w /\
  (forall X, In X tns -> lookup X (sf w') = lookup X (sf (snd (pipeline X w)))) /\
  (forall X, ~ In (sf_ident X) (map sf_ident tns) -> lookup X (sf w') = lookup X (sf w)).
Proof.
  revert w rs w'; induction tns as [|tn tns IH]; intros w rs w' Hnd Hrun.
  - injection Hrun as <- <-. repeat split; auto. intros X [].
  - cbn [map] in Hnd. inversion Hnd as [|? ? Hn Hnd']; subst.
    cbn [dag_run] in Hrun.
    destruct (pipeline tn w) as [r w1] eqn:E1.
    destruct (dag_run tns w1) as [rs1 w2] eqn:E2. injection Hrun as <- <-.
    destruct (pipeline_eq _ _ _ _ E1) as (Er & Ew1 & Pw1).
    destruct (IH _ _ _ Hnd' E2) as (Ers & Pw2 & Hin & Hout).
    assert (Loc : forall X, In X tns ->
              lookup X (sf w1) = lookup X (sf w)).
    { intros X HX. rewrite Ew1. apply pipeline_sf_other.
      intros E; apply Hn; rewrite <- E; apply in_map; exact HX. }
    assert (Same : forall X, In X tns ->
              fst (pipeline X w1) = fst (pipeline X w) /\
              lookup X (sf (snd (pipeline X w1))) = lookup X (sf (snd (pipeline X w)))).
    { intros X HX.
      destruct (pipeline_fst_sf X w1) as (F1 & S1 & _).
      destruct (pipeline_fst_sf X w) as (F0 & S0 & _).
      rewrite F1, S1, F0, S0, Pw1. apply pipeline_sf_local, Loc, HX. }
    split; [|split; [congruence|split]].
    + cbn [map]. rewrite E1, Ers. cbn [fst]. f_equal.
      apply map_ext_in. intros X HX. apply Same, HX.
    + intros X [HX|HX].
      * subst X. rewrite (Hout tn Hn), E1. reflexivity.
      * rewrite (Hin X HX). apply Same, HX.
    + intros X HX. rewrite Hout by (intros H; apply HX; right; exact H).
      rewrite Ew1. apply pipeline_sf_other. intros E; apply HX; left; symmetry; exact E.
Qed.

Lemma dwfb_dwf d : dwfb d = true -> dwf d.
Proof.
  unfold dwfb, dwf. rewrite forallb_forall. intros H t Ht r Hr.
  specialize (H t Ht). rewrite forallb_forall in H. specialize (H r Hr).
  apply andb_true_iff in H as [H1 H2]. split; [apply Nat.eqb_eq; exact H1|exact H2].
Qed.

Section ExtraWitnesses.
Local Open Scope string_scope.
Import Samples.

Lemma pipeline_frame_witness :
  pg (snd (pipeline "estados" ex_world2)) = pg ex_world2 /\
  lookup "cidades" (sf (snd (pipeline "estados" ex_world2))) = lookup "cidades" (sf ex_world2).
Proof.
  destruct (pipeline_frame "estados" ex_world2 _ _ (surjective_pairing _)) as [H1 H2].
  split; [exact H1|apply H2; vm_compute; discriminate].
Defined.

Lemma pipelines_commute_witness :
  fst (pipeline "estados" ex_world2) =
    fst (pipeline "estados" (snd (pipeline "cidades" ex_world2))) /\
  lookup "estados" (sf (snd (pipeline "cidades" (snd (pipeline "estados" ex_world2))))) =
    lookup "estados" (sf (snd (pipeline "estados" (snd (pipeline "cidades" ex_world2))))) /\
  lookup "cidades" (sf (snd (pipeline "cidades" (snd (pipeline "estados" ex_world2))))) =
    lookup "cidades" (sf (snd (pipeline "estados" (snd (pipeline "cidades" ex_world2))))).
Proof.
  destruct (pipelines_commute "estados" "cidades" ex_world2 _ _ _ _ _ _ _ _
              ltac:(vm_compute; discriminate) (surjective_pairing _) (surjective_pairing _)
              (surjective_pairing _) (surjective_pairing _)) as (H1 & _ & _ & H).
  split; [exact H1|split; apply H].
Defined.

Lemma steps_dwf_witness :
  dwf (sf ex_world2) /\ dwf (sf (snd (pipeline "cidades" (snd (pipeline "estados" ex_world2))))).
Proof.
  assert (H0 : dwf (sf ex_world2)) by (apply dwfb_dwf; vm_compute; reflexivity).
  split; [exact H0|].
  apply (steps_dwf ex_world2); [|exact H0].
  eapply steps_cons; [exact (step_run "estados" _ _ _ (surjective_pairing _))|].
  eapply steps_cons; [exact (step_run "cidades" _ _ _ (surjective_pairing _))|].
  apply steps_refl.
Defined.

Lemma steps_append_only_witness :
  lookup "estados" (sf ex_world) = Some ex_dtable /\
  exists extra,
    lookup "estados" (sf (snd (pipeline "estados" {| pg := ex_src_null;
                                                       sf := sf (snd (pipeline "estados" ex_world));
                                                       log := log (snd (pipeline "estados" ex_world)) |}))) =
    Some {| dname := dname ex_dtable; dcols := dcols ex_dtable; dnotnull := dnotnull ex_dtable;
            drows := drows ex_dtable ++ extra |}.
Proof.
  assert (H0 : lookup "estados" (sf ex_world) = Some ex_dtable) by reflexivity.
  split; [exact H0|].
  apply (steps_append_only "estados" ex_world); [|exact H0].
  eapply steps_cons; [exact (step_run "estados" _ _ _ (surjective_pairing _))|].
  eapply steps_cons; [exact (step_source _ ex_src_null)|].
  eapply steps_cons; [exact (step_run "estados" _ _ _ (surjective_pairing _))|].
  apply steps_refl.
Defined.


Lemma dag_task_ids_unique_witness :
  NoDup table_names /\
  NoDup (map task_id (dag_tasks table_names)) /\ length (dag_tasks table_names) = 14%nat.
Proof.
  assert (H : NoDup table_names) by (apply nodup_b_NoDup; reflexivity).
  split; [exact H|exact (dag_task_ids_unique table_names H)].
Defined.

Lemma dag_load_upstream_witness :
  filter (fun e => String.eqb (snd e) "load_data_vendas") (dag_edges table_names) =
  [("get_max_id_vendas", "load_data_vendas")].
Proof.
  apply (dag_load_upstream table_names "vendas").
  - apply nodup_b_NoDup; reflexivity.
  - cbn; tauto.
Defined.

Lemma pipeline_bad_destination_witness :
  (exists e, fst (pipeline "veiculos" ex_world2) = Err e) /\
  sf (snd (pipeline "veiculos" ex_world2)) = sf ex_world2.
Proof.
  destruct (pipeline_bad_destination "veiculos" ex_world2 _ _
              (or_introl eq_refl) (surjective_pairing _)) as (H1 & H2 & _).
  split; [exact H1|exact H2].
Defined.

Lemma pipeline_text_source_key_witness :
  (exists e, fst (pipeline "estados" ex_world_textkey) = Err e) /\
  sf (snd (pipeline "estados" ex_world_textkey)) = sf ex_world_textkey.
Proof.
  destruct (pipeline_text_source_key "estados" ex_world_textkey _ _
              (hd ex_table (stables ex_src_textkey)) "id_estados" 0%nat
              [VStr "5"; VStr "BA"] "5" eq_refl eq_refl eq_refl ltac:(cbn; tauto) eq_refl (surjective_pairing _)) as (H1 & H2 & _).
  split; [exact H1|exact H2].
Defined.

Lemma get_max_primary_key_null_keys_witness :
  fst (get_max_primary_key "estados" ex_world_nullkeys) = Ok 0.
Proof.
  apply (get_max_primary_key_null_keys "estados" ex_world_nullkeys ex_dtable_nullkeys
           "ID_ESTADOS" 0%nat).
  - reflexivity.
  - reflexivity.
  - reflexivity.
  - intros x Hx; cbn in Hx; repeat (destruct Hx as [<-|Hx]; [reflexivity|]); destruct Hx.
Defined.

Lemma dag_run_independent_witness :
  fst (dag_run ["estados"; "cidades"] ex_world2) =
    [fst (pipeline "estados" ex_world2); fst (pipeline "cidades" ex_world2)] /\
  lookup "cidades" (sf (snd (dag_run ["estados"; "cidades"] ex_world2))) =
    lookup "cidades" (sf (snd (pipeline "cidades" ex_world2))).
Proof.
  destruct (dag_run_independent ["estados"; "cidades"] ex_world2 _ _
              ltac:(vm_compute; constructor; [intros [H|[]]; discriminate|
                                               constructor; [intros []|constructor]])
              (surjective_pairing _)) as (H1 & _ & H3 & _).
  split; [exact H1|apply H3; cbn; tauto].
Defined.

End ExtraWitnesses.

(** ** Counterexamples *)

Section Counterexamples.
Local Open Scope string_scope.
Import Samples.

(** C1 (counterexample).  A source table whose key column was created with
    the quoted name [ID_estados]: the catalog lists it, but the unquoted
    [ID_estados] of the extraction query denotes [id_estados], which does
    not exist, so the query fails although rows with key 4 and 5 lie above
    the watermark 3. *)
Lemma extraction_exact_counterexample :
  resolve ex_src_quoted "estados" = Some ex_table_quoted /\
  discovered_columns ex_src_quoted "estados" = scols ex_table_quoted /\
  map (fun r => nth 0 r VNull) (srows ex_table_quoted) = [VInt 1; VInt 4; VInt 5] /\
  exec_pg (SSelect (discovered_columns ex_src_quoted "estados") "estados"
                   (pk_name "estados") 3) ex_src_quoted = Err "column does not exist".
Proof. repeat split; reflexivity. Qed.



End Counterexamples.
